(** * Snapgram: the API access layer and the query/cache layer

    A shallow embedding of [src/lib/appwrite/api.ts] and of the React Query
    hooks of [src/lib/react-query/queries.ts].

    The remote backend (account service, document database, file storage) is
    not part of the repository.  It is modelled as an explicit [Backend]
    value that every SDK call reads or updates, together with a script of
    [Fault]s that decides, call by call, whether the SDK promise resolves,
    resolves with a falsy value, or rejects.  The asynchronous functions of
    the source become computations in a state-and-exception monad [M]:
    [await] is sequencing, [throw] is [throw], [try { } catch (error) { }] is
    [try_catch]. *)

From Stdlib Require Import String Ascii List ZArith Bool Lia.
From Stdlib Require Import Permutation Sorted DecimalString.
Import ListNotations.

Open Scope string_scope.
Open Scope Z_scope.

(* ================================================================= *)
(** ** JavaScript values and built-ins used by the source *)

(** [!s] on a string: the empty string is falsy. *)
Definition truthy (s : string) : bool := negb (s =? "")%string.

(** [!x] on an optional string ([string | undefined]). *)
Definition truthy_opt (o : option string) : bool :=
  match o with
  | Some s => truthy s
  | None => false
  end.

(** [!!o] on an optional object: an object is truthy, [undefined] is not. *)
Definition defined {A} (o : option A) : bool :=
  match o with
  | Some _ => true
  | None => false
  end.

(** [s.replace(/ /g, "")]: every U+0020 character is removed. *)
Fixpoint replace_spaces (s : string) : string :=
  match s with
  | EmptyString => EmptyString
  | String c r =>
      if Ascii.eqb c " "%char then replace_spaces r
      else String c (replace_spaces r)
  end.

(** [s.split(",")] for a one-character separator. *)
Fixpoint split (sep : ascii) (s : string) : list string :=
  match s with
  | EmptyString => [EmptyString]
  | String c r =>
      if Ascii.eqb c sep then EmptyString :: split sep r
      else match split sep r with
           | h :: t => String c h :: t
           | [] => [String c EmptyString]
           end
  end.

(** [Array.prototype.slice(start, end)]: negative indices count from the
    end of the array, and both are clamped to the array. *)
Definition slice_index (len i : Z) : Z :=
  if i <? 0 then Z.max (len + i) 0 else Z.min i len.

Definition slice {A} (l : list A) (start_ end_ : Z) : list A :=
  let len := Z.of_nat (length l) in
  let k := slice_index len start_ in
  let final := slice_index len end_ in
  firstn (Z.to_nat (Z.max (final - k) 0)) (skipn (Z.to_nat k) l).

(** [Array.prototype.sort(compare)]: a stable sort; [compare a b <= 0]
    keeps [a] before [b]. *)
Section Sort.
Context {A : Type} (compare : A -> A -> Z).

Fixpoint sort_insert (x : A) (l : list A) : list A :=
  match l with
  | [] => [x]
  | y :: r => if compare x y <=? 0 then x :: y :: r else y :: sort_insert x r
  end.

Definition sort (l : list A) : list A := fold_right sort_insert [] l.
End Sort.

(** [ID.unique()]: the [n]th identifier handed out by the SDK. *)
Definition unique_id (n : nat) : string :=
  "id" ++ NilZero.string_of_uint (Nat.to_uint n).

(** Whether [t] occurs in [s] (full-text search on an attribute). *)
Fixpoint occurs (t s : string) : bool :=
  if String.prefix t s then true
  else match s with
       | EmptyString => false
       | String _ r => occurs t r
       end.

(* ================================================================= *)
(** ** Documents *)

(** A browser [File] object. *)
Record File := { file_name : string }.

Record Account := {
  account_id : string;
  account_email : string;
  account_password : string;
  account_name : string
}.

(** A row of the followers collection. *)
Record FollowDoc := {
  follow_id : string;
  follower : string;
  followedUser : string
}.

(** A row of the saves collection. *)
Record SaveDoc := {
  save_id : string;
  save_user : string;
  save_post : string
}.

(** A row of the users collection. *)
Record UserRow := {
  row_id : string;
  row_accountId : string;
  row_name : string;
  row_username : string;
  row_email : string;
  row_bio : string;
  row_imageUrl : string;
  row_imageId : string
}.

(** A user document as the database returns it: the row and its two
    relationship attributes, read by the source as [following] and
    [followers]. *)
Record UserDoc := {
  user_row : UserRow;
  following : list FollowDoc;
  followers : list FollowDoc
}.

Definition user_id (u : UserDoc) : string := row_id (user_row u).

(** A document of the posts collection; the two timestamps are kept as
    the value of [new Date(...).getTime()]. *)
Record PostDoc := {
  post_id : string;
  post_createdAt : Z;
  post_updatedAt : Z;
  post_creator : string;
  post_caption : string;
  post_imageUrl : string;
  post_imageId : string;
  post_location : string;
  post_tags : list string;
  post_likes : list string
}.

(** The inputs of the mutations, as the source reads their fields. *)
Record INewUser := {
  nu_name : string;
  nu_username : string;
  nu_email : string;
  nu_password : string
}.

Record INewPost := {
  np_userId : string;
  np_caption : string;
  np_file : list File;
  np_location : string;
  np_tags : option string
}.

Record IUpdatePost := {
  up_postId : string;
  up_caption : string;
  up_imageId : string;
  up_imageUrl : string;
  up_file : list File;
  up_location : string;
  up_tags : option string
}.

Record IUpdateUser := {
  uu_userId : string;
  uu_name : string;
  uu_username : string;
  uu_email : string;
  uu_bio : string;
  uu_imageId : string;
  uu_imageUrl : string;
  uu_file : list File
}.

(* ================================================================= *)
(** ** The remote backend *)

Inductive Collection := usersC | postsC | savesC | followersC.

(** The query builders of the SDK that the source uses. *)
Inductive Query :=
| Query_equal (attribute value : string)
| Query_orderDesc (attribute : string)
| Query_search (attribute term : string)
| Query_limit (n : Z).

(** What the remote system holds. *)
Record Backend := {
  accounts : list Account;
  session : option string;
  users : list UserRow;
  posts : list PostDoc;
  saves : list SaveDoc;
  follows : list FollowDoc;
  files : list (string * File);
  now : Z
}.

Definition with_accounts (v : list Account) (b : Backend) : Backend :=
  {| accounts := v; session := session b; users := users b; posts := posts b;
     saves := saves b; follows := follows b; files := files b; now := now b |}.
Definition with_session (v : option string) (b : Backend) : Backend :=
  {| accounts := accounts b; session := v; users := users b; posts := posts b;
     saves := saves b; follows := follows b; files := files b; now := now b |}.
Definition with_users (v : list UserRow) (b : Backend) : Backend :=
  {| accounts := accounts b; session := session b; users := v; posts := posts b;
     saves := saves b; follows := follows b; files := files b; now := now b |}.
Definition with_posts (v : list PostDoc) (b : Backend) : Backend :=
  {| accounts := accounts b; session := session b; users := users b; posts := v;
     saves := saves b; follows := follows b; files := files b; now := now b |}.
(** The server clock after a write that stamps a document. *)
Definition tick (b : Backend) : Backend :=
  {| accounts := accounts b; session := session b; users := users b;
     posts := posts b; saves := saves b; follows := follows b;
     files := files b; now := now b + 1 |}.
Definition with_saves (v : list SaveDoc) (b : Backend) : Backend :=
  {| accounts := accounts b; session := session b; users := users b;
     posts := posts b; saves := v; follows := follows b; files := files b;
     now := now b |}.
Definition with_follows (v : list FollowDoc) (b : Backend) : Backend :=
  {| accounts := accounts b; session := session b; users := users b;
     posts := posts b; saves := saves b; follows := v; files := files b;
     now := now b |}.
Definition with_files (v : list (string * File)) (b : Backend) : Backend :=
  {| accounts := accounts b; session := session b; users := users b;
     posts := posts b; saves := saves b; follows := follows b; files := v;
     now := now b |}.

(** Errors that reach a [catch]: the [Error] constructor that the source
    throws ([throw Error]), a [TypeError] of the runtime (a property read
    on [undefined]), or the exception of a failed SDK call. *)
Inductive Err :=
| ErrorCtor
| TypeError
| AppwriteException (code : nat).

(** The user document the database returns for a row: relationships are
    expanded from the followers collection. *)
Definition expand_user (b : Backend) (r : UserRow) : UserDoc :=
  {| user_row := r;
     following := filter (fun f => follower f =? row_id r)%string (follows b);
     followers :=
       filter (fun f => followedUser f =? row_id r)%string (follows b) |}.

Definition file_exists (b : Backend) (id : string) : bool :=
  existsb (fun f => fst f =? id)%string (files b).

(** The result of one list query on the posts collection. *)
Definition by_createdAt_desc (a b : PostDoc) : Z :=
  post_createdAt b - post_createdAt a.
Definition by_updatedAt_desc (a b : PostDoc) : Z :=
  post_updatedAt b - post_updatedAt a.

Definition post_query (q : Query) (l : list PostDoc) : option (list PostDoc) :=
  match q with
  | Query_equal a v =>
      if (a =? "creator")%string
      then Some (filter (fun p => post_creator p =? v)%string l)
      else if (a =? "$id")%string
      then Some (filter (fun p => post_id p =? v)%string l)
      else None
  | Query_orderDesc a =>
      if (a =? "$createdAt")%string then Some (sort by_createdAt_desc l)
      else if (a =? "$updatedAt")%string then Some (sort by_updatedAt_desc l)
      else None
  | Query_search a t =>
      if (a =? "caption")%string
      then Some (filter (fun p => occurs t (post_caption p)) l)
      else None
  | Query_limit n => Some (firstn (Z.to_nat n) l)
  end.

Definition user_query (q : Query) (l : list UserRow) : option (list UserRow) :=
  match q with
  | Query_equal a v =>
      if (a =? "accountId")%string
      then Some (filter (fun u => row_accountId u =? v)%string l)
      else if (a =? "$id")%string
      then Some (filter (fun u => row_id u =? v)%string l)
      else None
  | Query_limit n => Some (firstn (Z.to_nat n) l)
  | _ => None
  end.

Fixpoint run_queries {A} (step : Query -> list A -> option (list A))
    (qs : list Query) (l : list A) : option (list A) :=
  match qs with
  | [] => Some l
  | q :: r =>
      match step q l with
      | Some l' => run_queries step r l'
      | None => None
      end
  end.

(** The posts of one creator, as [Query.equal("creator", userId)] lists
    them. *)
Definition posts_of (b : Backend) (userId : string) : list PostDoc :=
  filter (fun p => post_creator p =? userId)%string (posts b).

(* ================================================================= *)
(** ** The query cache of React Query *)

(** The constants of [QUERY_KEYS]. *)
Inductive QUERY_KEYS :=
| GET_HOME_FEED_POSTS | GET_EXPLORE_POSTS | SEARCH_POSTS | GET_POST_BY_ID
| GET_USER_POSTS | GET_USER_PROFILE_POSTS | GET_CURRENT_USER
| GET_USER_BY_ID | GET_USERS | GET_ALL_USERS | GET_USER_FOLLOWING.

(** One element of a query key array. *)
Inductive KeyPart :=
| KOp (k : QUERY_KEYS)
| KString (s : string)
| KUndefined.

Definition QueryKey := list KeyPart.

(** [data?.$id] and optional identifiers inside a key. *)
Definition key_of_id (o : option string) : KeyPart :=
  match o with
  | Some s => KString s
  | None => KUndefined
  end.

Definition QUERY_KEYS_eqb (a b : QUERY_KEYS) : bool :=
  match a, b with
  | GET_HOME_FEED_POSTS, GET_HOME_FEED_POSTS
  | GET_EXPLORE_POSTS, GET_EXPLORE_POSTS
  | SEARCH_POSTS, SEARCH_POSTS
  | GET_POST_BY_ID, GET_POST_BY_ID
  | GET_USER_POSTS, GET_USER_POSTS
  | GET_USER_PROFILE_POSTS, GET_USER_PROFILE_POSTS
  | GET_CURRENT_USER, GET_CURRENT_USER
  | GET_USER_BY_ID, GET_USER_BY_ID
  | GET_USERS, GET_USERS
  | GET_ALL_USERS, GET_ALL_USERS
  | GET_USER_FOLLOWING, GET_USER_FOLLOWING => true
  | _, _ => false
  end.

Definition KeyPart_eqb (a b : KeyPart) : bool :=
  match a, b with
  | KOp x, KOp y => QUERY_KEYS_eqb x y
  | KString x, KString y => (x =? y)%string
  | KUndefined, KUndefined => true
  | _, _ => false
  end.

(** [partialMatchKey(a, b)] on two key arrays: every index of the filter
    [b] holds the same element in the query's key [a]; an index past the
    end of [a] reads [undefined]. *)
Fixpoint partialMatchKey (a b : QueryKey) : bool :=
  match b with
  | [] => true
  | y :: b' => KeyPart_eqb (hd KUndefined a) y && partialMatchKey (tl a) b'
  end.

Record CacheEntry := {
  entry_key : QueryKey;
  entry_invalidated : bool
}.

Definition invalidate_entry (filter_key : QueryKey) (e : CacheEntry)
  : CacheEntry :=
  if partialMatchKey (entry_key e) filter_key
  then {| entry_key := entry_key e; entry_invalidated := true |}
  else e.

(* ================================================================= *)
(** ** The world and the monad of asynchronous code *)

(** How the promise of one SDK call settles. *)
Inductive Fault :=
| Resolves
| ResolvesFalsy
| Rejects (code : nat).

(** The SDK calls of the source, as they appear on the wire. *)
Inductive Call :=
| AccountCreate (id email : string)
| AccountCreateEmailSession (email : string)
| AccountDeleteSession
| AccountGet
| AccountUpdateName (name : string)
| AvatarsGetInitials (name : string)
| CreateDocument (c : Collection) (id : string)
| GetDocument (c : Collection) (id : string)
| ListDocuments (c : Collection) (queries : list Query)
| UpdateDocument (c : Collection) (id : string)
| DeleteDocument (c : Collection) (id : string)
| StorageCreateFile (id : string)
| StorageGetFilePreview (fileId : string)
| StorageDeleteFile (fileId : string).

(** How an issued call settled. *)
Inductive Settled :=
| Fulfilled
| FulfilledFalsy
| Rejected (e : Err).

Record Event := {
  call : Call;
  settled : Settled
}.

Record World := {
  backend : Backend;
  faults : list Fault;      (* how the next SDK calls settle *)
  ids : nat;                (* supply of [ID.unique()] *)
  console : list Err;       (* what [console.log] printed, oldest first *)
  trace : list Event;       (* SDK calls issued, oldest first *)
  cache : list CacheEntry;  (* the queries held by the QueryClient *)
  invalidations : list QueryKey  (* filters given to [invalidateQueries] *)
}.

Inductive Outcome (A : Type) :=
| Returned (a : A)
| Thrown (e : Err).
Arguments Returned {A} a.
Arguments Thrown {A} e.

Definition M (A : Type) : Type := World -> Outcome A * World.

Definition ret {A} (a : A) : M A := fun w => (Returned a, w).

Definition bind {A B} (m : M A) (k : A -> M B) : M B :=
  fun w =>
    match m w with
    | (Returned a, w') => k a w'
    | (Thrown e, w') => (Thrown e, w')
    end.

Definition throw {A} (e : Err) : M A := fun w => (Thrown e, w).

Definition try_catch {A} (body : M A) (handler : Err -> M A) : M A :=
  fun w =>
    match body w with
    | (Returned a, w') => (Returned a, w')
    | (Thrown e, w') => handler e w'
    end.

Declare Scope js_scope.
Delimit Scope js_scope with js.
Notation "x <- c ;; k" := (bind c (fun x => k))
  (at level 61, c at next level, right associativity) : js_scope.
Notation "c ;; k" := (bind c (fun _ => k))
  (at level 61, right associativity) : js_scope.
Open Scope js_scope.

Definition console_log (e : Err) : M unit :=
  fun w =>
    (Returned tt,
     {| backend := backend w; faults := faults w; ids := ids w;
        console := console w ++ [e]; trace := trace w; cache := cache w;
        invalidations := invalidations w |}).

Definition ID_unique : M string :=
  fun w =>
    (Returned (unique_id (ids w)),
     {| backend := backend w; faults := faults w; ids := S (ids w);
        console := console w; trace := trace w; cache := cache w;
        invalidations := invalidations w |}).

(** [if (!x) throw Error], binding the defined value. *)
Definition require {A} (o : option A) : M A :=
  match o with
  | Some a => ret a
  | None => throw ErrorCtor
  end.

(** Reading a property of a value that may be [undefined]. *)
Definition property {A} (o : option A) : M A :=
  match o with
  | Some a => ret a
  | None => throw TypeError
  end.

(** One SDK call: it is put on the wire, the script says how it settles,
    and when it resolves the backend operation [op] decides the result.  A
    rejected call and one that resolved with a falsy value have done
    nothing to the backend. *)
Definition issued (c : Call) (s : Settled) (b : Backend) (w : World) : World :=
  {| backend := b; faults := tl (faults w); ids := ids w;
     console := console w;
     trace := trace w ++ [{| call := c; settled := s |}];
     cache := cache w; invalidations := invalidations w |}.

Definition sdk {T} (c : Call) (op : Backend -> Err + T * Backend)
  : M (option T) :=
  fun w =>
    match hd Resolves (faults w) with
    | Rejects code =>
        (Thrown (AppwriteException code),
         issued c (Rejected (AppwriteException code)) (backend w) w)
    | ResolvesFalsy => (Returned None, issued c FulfilledFalsy (backend w) w)
    | Resolves =>
        match op (backend w) with
        | inl e => (Thrown e, issued c (Rejected e) (backend w) w)
        | inr (t, b') => (Returned (Some t), issued c Fulfilled b' w)
        end
    end.

(** [Promise.all(promises)]: every call has been issued when the array is
    built, in the order of the array; the result rejects with one
    rejection, taken here to be the first in that order, and the other
    rejections are dropped. *)
Fixpoint Promise_all {A} (ps : list (M A)) : M (list A) :=
  match ps with
  | [] => ret []
  | p :: r =>
      fun w =>
        match p w with
        | (Returned a, w1) =>
            match Promise_all r w1 with
            | (Returned l, w2) => (Returned (a :: l), w2)
            | (Thrown e, w2) => (Thrown e, w2)
            end
        | (Thrown e, w1) => (Thrown e, snd (Promise_all r w1))
        end
  end.

(* ----------------------------------------------------------------- *)
(** *** The SDK services *)

Definition not_found : nat := 404%nat.
Definition unauthorized : nat := 401%nat.
Definition bad_request : nat := 400%nat.

Definition find_account (b : Backend) (id : string) : option Account :=
  find (fun a => account_id a =? id)%string (accounts b).

Definition account_create (id email password name : string)
  : M (option Account) :=
  sdk (AccountCreate id email)
    (fun b =>
       let a := {| account_id := id; account_email := email;
                   account_password := password; account_name := name |} in
       inr (a, with_accounts (accounts b ++ [a]) b)).

Definition account_createEmailSession (email password : string)
  : M (option string) :=
  sdk (AccountCreateEmailSession email)
    (fun b =>
       match find (fun a => (account_email a =? email)%string
                            && (account_password a =? password)%string)
                  (accounts b) with
       | Some a => inr (account_id a, with_session (Some (account_id a)) b)
       | None => inl (AppwriteException unauthorized)
       end).

Definition account_deleteSession : M (option unit) :=
  sdk AccountDeleteSession
    (fun b =>
       match session b with
       | Some _ => inr (tt, with_session None b)
       | None => inl (AppwriteException unauthorized)
       end).

Definition current_account (b : Backend) : option Account :=
  match session b with
  | Some id => find_account b id
  | None => None
  end.

Definition account_get : M (option Account) :=
  sdk AccountGet
    (fun b =>
       match current_account b with
       | Some a => inr (a, b)
       | None => inl (AppwriteException unauthorized)
       end).

Definition rename_account (name : string) (a : Account) : Account :=
  {| account_id := account_id a; account_email := account_email a;
     account_password := account_password a; account_name := name |}.

Definition account_updateName (name : string) : M (option Account) :=
  sdk (AccountUpdateName name)
    (fun b =>
       match current_account b with
       | Some a =>
           inr (rename_account name a,
                with_accounts
                  (map (fun x => if (account_id x =? account_id a)%string
                                 then rename_account name x else x)
                       (accounts b)) b)
       | None => inl (AppwriteException unauthorized)
       end).

Definition avatars_getInitials (name : string) : M (option string) :=
  sdk (AvatarsGetInitials name)
    (fun b => inr ("/avatars/initials?name=" ++ name, b)).

Definition databases_createDocument_users (id accountId email name imageUrl
    username : string) : M (option UserDoc) :=
  sdk (CreateDocument usersC id)
    (fun b =>
       let r := {| row_id := id; row_accountId := accountId; row_name := name;
                   row_username := username; row_email := email;
                   row_bio := ""; row_imageUrl := imageUrl;
                   row_imageId := "" |} in
       inr (expand_user b r, with_users (users b ++ [r]) b)).

Definition databases_createDocument_posts (id creator caption imageUrl imageId
    location : string) (tags : list string) : M (option PostDoc) :=
  sdk (CreateDocument postsC id)
    (fun b =>
       let p := {| post_id := id; post_createdAt := now b;
                   post_updatedAt := now b; post_creator := creator;
                   post_caption := caption; post_imageUrl := imageUrl;
                   post_imageId := imageId; post_location := location;
                   post_tags := tags; post_likes := [] |} in
       inr (p, tick (with_posts (posts b ++ [p]) b))).

Definition databases_createDocument_saves (id user post : string)
  : M (option SaveDoc) :=
  sdk (CreateDocument savesC id)
    (fun b =>
       let s := {| save_id := id; save_user := user; save_post := post |} in
       inr (s, with_saves (saves b ++ [s]) b)).

Definition databases_createDocument_followers (id follower_ followedUser_
    : string) : M (option FollowDoc) :=
  sdk (CreateDocument followersC id)
    (fun b =>
       let f := {| follow_id := id; follower := follower_;
                   followedUser := followedUser_ |} in
       inr (f, with_follows (follows b ++ [f]) b)).

Definition find_post (b : Backend) (id : string) : option PostDoc :=
  find (fun p => post_id p =? id)%string (posts b).

Definition find_user (b : Backend) (id : string) : option UserRow :=
  find (fun u => row_id u =? id)%string (users b).

Definition databases_getDocument_posts (id : string) : M (option PostDoc) :=
  sdk (GetDocument postsC id)
    (fun b =>
       match find_post b id with
       | Some p => inr (p, b)
       | None => inl (AppwriteException not_found)
       end).

Definition databases_getDocument_users (id : string) : M (option UserDoc) :=
  sdk (GetDocument usersC id)
    (fun b =>
       match find_user b id with
       | Some u => inr (expand_user b u, b)
       | None => inl (AppwriteException not_found)
       end).

(** [listDocuments] answers with [{ documents }]; the model keeps the
    array. *)
Definition databases_listDocuments_posts (queries : list Query)
  : M (option (list PostDoc)) :=
  sdk (ListDocuments postsC queries)
    (fun b =>
       match run_queries post_query queries (posts b) with
       | Some l => inr (l, b)
       | None => inl (AppwriteException bad_request)
       end).

Definition databases_listDocuments_users (queries : list Query)
  : M (option (list UserDoc)) :=
  sdk (ListDocuments usersC queries)
    (fun b =>
       match run_queries user_query queries (users b) with
       | Some l => inr (map (expand_user b) l, b)
       | None => inl (AppwriteException bad_request)
       end).

(** [updateDocument(..., id, data)]: the attributes of [data] replace those
    of the stored document, the others stay; [$updatedAt] is stamped. *)
Definition stamp (t : Z) (p : PostDoc) : PostDoc :=
  {| post_id := post_id p; post_createdAt := post_createdAt p;
     post_updatedAt := t; post_creator := post_creator p;
     post_caption := post_caption p; post_imageUrl := post_imageUrl p;
     post_imageId := post_imageId p; post_location := post_location p;
     post_tags := post_tags p; post_likes := post_likes p |}.

Definition databases_updateDocument_posts (id : string)
    (data : PostDoc -> PostDoc) : M (option PostDoc) :=
  sdk (UpdateDocument postsC id)
    (fun b =>
       match find_post b id with
       | Some p =>
           let p' := stamp (now b) (data p) in
           inr (p', tick (with_posts
                            (map (fun x => if (post_id x =? id)%string
                                           then p' else x) (posts b)) b))
       | None => inl (AppwriteException not_found)
       end).

Definition databases_updateDocument_users (id : string)
    (data : UserRow -> UserRow) : M (option UserDoc) :=
  sdk (UpdateDocument usersC id)
    (fun b =>
       match find_user b id with
       | Some u =>
           inr (expand_user b (data u),
                with_users (map (fun x => if (row_id x =? id)%string
                                          then data u else x) (users b)) b)
       | None => inl (AppwriteException not_found)
       end).

Definition databases_deleteDocument_posts (id : string) : M (option unit) :=
  sdk (DeleteDocument postsC id)
    (fun b =>
       match find_post b id with
       | Some _ =>
           inr (tt, with_posts
                      (filter (fun x => negb (post_id x =? id)%string)
                              (posts b)) b)
       | None => inl (AppwriteException not_found)
       end).

Definition databases_deleteDocument_saves (id : string) : M (option unit) :=
  sdk (DeleteDocument savesC id)
    (fun b =>
       if existsb (fun s => save_id s =? id)%string (saves b)
       then inr (tt, with_saves
                       (filter (fun x => negb (save_id x =? id)%string)
                               (saves b)) b)
       else inl (AppwriteException not_found)).

Definition databases_deleteDocument_followers (id : string)
  : M (option unit) :=
  sdk (DeleteDocument followersC id)
    (fun b =>
       if existsb (fun f => follow_id f =? id)%string (follows b)
       then inr (tt, with_follows
                       (filter (fun x => negb (follow_id x =? id)%string)
                               (follows b)) b)
       else inl (AppwriteException not_found)).

(** [storage.createFile(bucket, id, file)]; the SDK throws when [file] is
    [undefined]. *)
Definition storage_createFile (id : string) (file : option File)
  : M (option string) :=
  sdk (StorageCreateFile id)
    (fun b =>
       match file with
       | Some f => inr (id, with_files (files b ++ [(id, f)]) b)
       | None => inl (AppwriteException bad_request)
       end).

Definition preview_url (fileId : string) : string :=
  "/storage/files/" ++ fileId ++ "/preview".

Definition storage_getFilePreview (fileId : string) : M (option string) :=
  sdk (StorageGetFilePreview fileId) (fun b => inr (preview_url fileId, b)).

Definition storage_deleteFile (fileId : string) : M (option unit) :=
  sdk (StorageDeleteFile fileId)
    (fun b =>
       if file_exists b fileId
       then inr (tt, with_files
                       (filter (fun f => negb (fst f =? fileId)%string)
                               (files b)) b)
       else inl (AppwriteException not_found)).

(* ================================================================= *)
(** ** The API access layer ([api.ts]) *)

(** The value of an optional string once a guard has found it truthy. *)
Definition the (o : option string) : string :=
  match o with
  | Some s => s
  | None => ""
  end.

(** What [createUserAccount] returns: the saved user, or the caught
    error. *)
Inductive AccountResult :=
| SavedUser (newUser : option UserDoc)
| CaughtError (error : Err).

(* ----------------------------------------------------------------- *)
(** *** File *)

Definition uploadFile (file : option File) : M (option string) :=
  try_catch
    (id <- ID_unique ;;
     uploadedFile <- storage_createFile id file ;;
     ret uploadedFile)
    (fun error => console_log error ;; ret None).

Definition getFilePreview (fileId : string) : M (option string) :=
  try_catch
    (fileUrl <- storage_getFilePreview fileId ;;
     ret fileUrl)
    (fun error => console_log error ;; ret None).

Definition deleteFile (fileId : string) : M (option unit) :=
  try_catch
    (storage_deleteFile fileId ;;
     ret (Some tt))
    (fun error => console_log error ;; ret None).

(* ----------------------------------------------------------------- *)
(** *** Auth *)

Definition saveUserToDB (accountId email name : string)
    (imageUrl : option string) (username : string) : M (option UserDoc) :=
  try_catch
    (id <- ID_unique ;;
     newUser <- databases_createDocument_users id accountId email name
                  (the imageUrl) username ;;
     ret newUser)
    (fun error => console_log error ;; ret None).

Definition createUserAccount (user : INewUser) : M AccountResult :=
  try_catch
    (id <- ID_unique ;;
     newAccount <- account_create id (nu_email user) (nu_password user)
                     (nu_name user) ;;
     newAccount <- require newAccount ;;
     avatarUrl <- avatars_getInitials (nu_name user) ;;
     newUser <- saveUserToDB (account_id newAccount)
                  (account_email newAccount) (account_name newAccount)
                  avatarUrl (nu_username user) ;;
     ret (SavedUser newUser))
    (fun error => console_log error ;; ret (CaughtError error)).

Definition signInAccount (email password : string) : M (option string) :=
  try_catch
    (session <- account_createEmailSession email password ;;
     ret session)
    (fun error => console_log error ;; ret None).

Definition signOutAccount : M (option unit) :=
  try_catch
    (session <- account_deleteSession ;;
     ret session)
    (fun error => console_log error ;; ret None).

(* ----------------------------------------------------------------- *)
(** *** User *)

Definition getCurrentUser : M (option UserDoc) :=
  try_catch
    (currentAccount <- account_get ;;
     currentAccount <- require currentAccount ;;
     currentUser <- databases_listDocuments_users
                      [Query_equal "accountId" (account_id currentAccount)] ;;
     currentUser <- require currentUser ;;
     ret (hd_error currentUser))
    (fun error => console_log error ;; ret None).

Definition getUserById (userId : option string) : M (option UserDoc) :=
  if negb (truthy_opt userId) then ret None
  else
    try_catch
      (user <- databases_getDocument_users (the userId) ;;
       match user with
       | None => ret None
       | Some u => ret (Some u)
       end)
      (fun error => console_log error ;; ret None).

Definition by_followers_desc (a b : UserDoc) : Z :=
  Z.of_nat (length (followers b)) - Z.of_nat (length (followers a)).

Definition getUsers (limit : option Z) : M (option (list UserDoc)) :=
  let queries :=
    match limit with
    | Some n => if n =? 0 then [] else [Query_limit n]
    | None => []
    end in
  try_catch
    (allUsers <- databases_listDocuments_users queries ;;
     allUsers <- require allUsers ;;
     ret (Some (sort by_followers_desc allUsers)))
    (fun error => console_log error ;; ret None).

(** [xs?.slice(startIndex, endIndex)] with the page window of the
    source. *)
Definition page_window {A} (all : option (list A)) (page pageSize : Z)
  : option (list A) :=
  let startIndex := (page - 1) * pageSize in
  let endIndex := startIndex + pageSize in
  match all with
  | Some l => Some (slice l startIndex endIndex)
  | None => None
  end.

Definition getAllUsers (page pageSize : Z) : M (option (list UserDoc)) :=
  try_catch
    (allUsers <- getUsers None ;;
     ret (page_window allUsers page pageSize))
    (fun error => console_log error ;; ret None).

Definition followUser (userId followedUserId : string)
  : M (option FollowDoc) :=
  try_catch
    (id <- ID_unique ;;
     followedUser <- databases_createDocument_followers id userId
                       followedUserId ;;
     followedUser <- require followedUser ;;
     ret (Some followedUser))
    (fun error => console_log error ;; ret None).

Definition unfollowUser (followedUserRecord : string) : M (option unit) :=
  try_catch
    (statusCode <- databases_deleteDocument_followers followedUserRecord ;;
     require statusCode ;;
     ret (Some tt))
    (fun error => console_log error ;; ret None).

(* ----------------------------------------------------------------- *)
(** *** Post *)

(** [post.tags?.replace(/ /g, "").split(",") || []] *)
Definition tags_of (tags : option string) : list string :=
  match tags with
  | Some s => split ","%char (replace_spaces s)
  | None => []
  end.

Definition createPost (post : INewPost) : M (option PostDoc) :=
  try_catch
    (uploadedFile <- uploadFile (hd_error (np_file post)) ;;
     uploadedFile <- require uploadedFile ;;
     fileUrl <- getFilePreview uploadedFile ;;
     fileUrl <- match fileUrl with
                | Some url => ret url
                | None => deleteFile uploadedFile ;; throw ErrorCtor
                end ;;
     let tags := tags_of (np_tags post) in
     id <- ID_unique ;;
     newPost <- databases_createDocument_posts id (np_userId post)
                  (np_caption post) fileUrl uploadedFile (np_location post)
                  tags ;;
     match newPost with
     | None => deleteFile uploadedFile ;; throw ErrorCtor
     | Some p => ret (Some p)
     end)
    (fun error => console_log error ;; ret None).
(* The first [deleteFile] of [createPost] is not awaited: its request is
   issued at that point all the same, and only the [throw] follows it. *)

Definition userIds_of (currentUser : UserDoc) : list string :=
  map followedUser (following currentUser) ++ [user_id currentUser].

(** [fetchPosts.flatMap((creator) => creator.documents)] *)
Fixpoint flatMap_documents (fetchPosts : list (option (list PostDoc)))
  : M (list PostDoc) :=
  match fetchPosts with
  | [] => ret []
  | creator :: r =>
      documents <- property creator ;;
      rest <- flatMap_documents r ;;
      ret (documents ++ rest)%list
  end.

Definition getFollowingPosts : M (option (list PostDoc)) :=
  try_catch
    (currentUser <- getCurrentUser ;;
     currentUser <- require currentUser ;;
     let userIds := userIds_of currentUser in
     fetchPosts <- Promise_all
                     (map (fun userId =>
                             databases_listDocuments_posts
                               [Query_equal "creator" userId])
                          userIds) ;;
     flat <- flatMap_documents fetchPosts ;;
     let postList := sort by_createdAt_desc flat in
     ret (Some postList))
    (fun error => console_log error ;; ret None).
(* [if (!postList) throw Error] never fires: an array is truthy. *)

Definition getHomeFeedPosts (page pageSize : Z) : M (option (list PostDoc)) :=
  try_catch
    (allPosts <- getFollowingPosts ;;
     ret (page_window allPosts page pageSize))
    (fun error => console_log error ;; ret None).

Definition getAllPosts : M (option (list PostDoc)) :=
  try_catch
    (posts <- databases_listDocuments_posts [Query_orderDesc "$updatedAt"] ;;
     posts <- require posts ;;
     ret (Some posts))
    (fun error => console_log error ;; ret None).

Definition getExplorePosts (page pageSize : Z) : M (option (list PostDoc)) :=
  try_catch
    (allPosts <- getAllPosts ;;
     ret (page_window allPosts page pageSize))
    (fun error => console_log error ;; ret None).

Definition searchPosts (searchTerm : string) : M (option (list PostDoc)) :=
  try_catch
    (posts <- databases_listDocuments_posts
                [Query_search "caption" searchTerm] ;;
     posts <- require posts ;;
     ret (Some posts))
    (fun error => console_log error ;; ret None).

Definition getPostById (postId : option string) : M (option PostDoc) :=
  if negb (truthy_opt postId) then throw ErrorCtor
  else
    try_catch
      (post <- databases_getDocument_posts (the postId) ;;
       post <- require post ;;
       ret (Some post))
      (fun error => console_log error ;; ret None).

Definition getUserPosts (userId : option string)
  : M (option (list PostDoc)) :=
  if negb (truthy_opt userId) then ret None
  else
    try_catch
      (userPosts <- databases_listDocuments_posts
                      [Query_equal "creator" (the userId);
                       Query_orderDesc "$createdAt"] ;;
       userPosts <- require userPosts ;;
       ret (Some userPosts))
      (fun error => console_log error ;; ret None).

Definition getUserProfilePosts (userId : string) (page pageSize : Z)
  : M (option (list PostDoc)) :=
  try_catch
    (profileUser <- getUserPosts (Some userId) ;;
     let allPosts := profileUser in
     ret (page_window allPosts page pageSize))
    (fun error => console_log error ;; ret None).

Definition set_likes (likesArray : list string) (p : PostDoc) : PostDoc :=
  {| post_id := post_id p; post_createdAt := post_createdAt p;
     post_updatedAt := post_updatedAt p; post_creator := post_creator p;
     post_caption := post_caption p; post_imageUrl := post_imageUrl p;
     post_imageId := post_imageId p; post_location := post_location p;
     post_tags := post_tags p; post_likes := likesArray |}.

Definition likePost (postId : string) (likesArray : list string)
  : M (option PostDoc) :=
  try_catch
    (updatedPost <- databases_updateDocument_posts postId
                      (set_likes likesArray) ;;
     updatedPost <- require updatedPost ;;
     ret (Some updatedPost))
    (fun error => console_log error ;; ret None).

Definition savePost (postId userId : string) : M (option SaveDoc) :=
  try_catch
    (id <- ID_unique ;;
     updatedPost <- databases_createDocument_saves id userId postId ;;
     updatedPost <- require updatedPost ;;
     ret (Some updatedPost))
    (fun error => console_log error ;; ret None).

Definition deleteSavedPost (savedRecordId : string) : M (option unit) :=
  try_catch
    (statusCode <- databases_deleteDocument_saves savedRecordId ;;
     require statusCode ;;
     ret (Some tt))
    (fun error => console_log error ;; ret None).

Definition set_post_fields (caption imageUrl imageId location : string)
    (tags : list string) (p : PostDoc) : PostDoc :=
  {| post_id := post_id p; post_createdAt := post_createdAt p;
     post_updatedAt := post_updatedAt p; post_creator := post_creator p;
     post_caption := caption; post_imageUrl := imageUrl;
     post_imageId := imageId; post_location := location;
     post_tags := tags; post_likes := post_likes p |}.

(** The block under [if (hasFileToUpdate)], which [updatePost] and
    [updateUser] share; [image] keeps its value when there is no file.
    [updatePost] does not await the cleanup [deleteFile] of this block and
    [updateUser] does: the request is issued at the same point, and nothing
    but the [throw] follows it. *)
Definition replace_image (file : list File) (image : string * string)
  : M (string * string) :=
  let hasFileToUpdate := (0 <? length file)%nat in
  if hasFileToUpdate then
    uploadedFile <- uploadFile (hd_error file) ;;
    uploadedFile <- require uploadedFile ;;
    fileUrl <- getFilePreview uploadedFile ;;
    match fileUrl with
    | Some url => ret (url, uploadedFile)
    | None => deleteFile uploadedFile ;; throw ErrorCtor
    end
  else ret image.

Definition updatePost (post : IUpdatePost) : M (option PostDoc) :=
  try_catch
    (let image := (up_imageUrl post, up_imageId post) in
     image <- replace_image (up_file post) image ;;
     let tags := tags_of (up_tags post) in
     updatedPost <- databases_updateDocument_posts (up_postId post)
                      (set_post_fields (up_caption post) (fst image)
                         (snd image) (up_location post) tags) ;;
     match updatedPost with
     | None => deleteFile (up_imageId post) ;; throw ErrorCtor
     | Some p => ret (Some p)
     end)
    (fun error => console_log error ;; ret None).

Definition deletePost (postId imageId : string) : M (option unit) :=
  if negb (truthy postId) || negb (truthy imageId) then throw ErrorCtor
  else
    try_catch
      (databases_deleteDocument_posts postId ;;
       ret (Some tt))
      (fun error => console_log error ;; ret None).

Definition set_user_fields (name username email bio imageUrl imageId : string)
    (u : UserRow) : UserRow :=
  {| row_id := row_id u; row_accountId := row_accountId u; row_name := name;
     row_username := username; row_email := email; row_bio := bio;
     row_imageUrl := imageUrl; row_imageId := imageId |}.

(** [updateUser] has no [return] statement: falling off the end of the
    [try] block or of the [catch] block resolves to [undefined]. *)
Definition updateUser (user : IUpdateUser) : M (option UserDoc) :=
  let hasFileToUpdate := (0 <? length (uu_file user))%nat in
  try_catch
    (let image := (uu_imageUrl user, uu_imageId user) in
     image <- replace_image (uu_file user) image ;;
     updatedUser <- databases_updateDocument_users (uu_userId user)
                      (set_user_fields (uu_name user) (uu_username user)
                         (uu_email user) (uu_bio user) (fst image)
                         (snd image)) ;;
     updatedAccount <- account_updateName (uu_name user) ;;
     (if negb (defined updatedUser) || negb (defined updatedAccount)
      then
        (if hasFileToUpdate then deleteFile (snd image) ;; ret tt
         else ret tt) ;;
        throw ErrorCtor
      else ret tt) ;;
     (if truthy (uu_imageId user) && hasFileToUpdate
      then deleteFile (uu_imageId user) ;; ret tt
      else ret tt) ;;
     ret None)
    (fun error => console_log error ;; ret None).

(* ================================================================= *)
(** ** The query/cache layer ([queries.ts]) *)

(** [queryClient.invalidateQueries({ queryKey })]: every cached query
    whose key the filter matches is marked invalidated. *)
Definition invalidateQueries (queryKey : QueryKey) : M unit :=
  fun w =>
    (Returned tt,
     {| backend := backend w; faults := faults w; ids := ids w;
        console := console w; trace := trace w;
        cache := map (invalidate_entry queryKey) (cache w);
        invalidations := invalidations w ++ [queryKey] |}).

(** A query has settled: its entry is (re)written, fresh. *)
Definition cache_settled (key : QueryKey) : M unit :=
  fun w =>
    (Returned tt,
     {| backend := backend w; faults := faults w; ids := ids w;
        console := console w; trace := trace w;
        cache := {| entry_key := key; entry_invalidated := false |}
                 :: filter
                      (fun e => negb (partialMatchKey (entry_key e) key
                                      && partialMatchKey key (entry_key e)))
                      (cache w);
        invalidations := invalidations w |}).

(** The options given to [useMutation]. *)
Record Mutation (V D : Type) := {
  mutationFn : V -> M D;
  onSuccess : D -> M unit
}.
Arguments mutationFn {V D} _ _.
Arguments onSuccess {V D} _ _.

(** Running a mutation: [onSuccess] runs with the data once the promise of
    [mutationFn] has resolved, and not when it has rejected. *)
Definition mutate {V D} (m : Mutation V D) (variables : V) : M D :=
  data <- mutationFn m variables ;;
  onSuccess m data ;;
  ret data.

(** The options given to [useQuery]. *)
Record QueryOptions (D : Type) := {
  queryKey : QueryKey;
  queryFn : M D;
  enabled : bool
}.
Arguments queryKey {D} _.
Arguments queryFn {D} _.
Arguments enabled {D} _.

(** What a mounted query does: a disabled query does not run its
    [queryFn]. *)
Definition observe {D} (q : QueryOptions D) : M (option D) :=
  if enabled q then
    data <- queryFn q ;;
    cache_settled (queryKey q) ;;
    ret (Some data)
  else ret None.

(** The options given to [useInfiniteQuery]. *)
Record InfiniteQueryOptions (D : Type) := {
  infiniteKey : QueryKey;
  pageFn : Z -> M D;
  getNextPageParam : list D -> Z;
  initialPageParam : Z
}.
Arguments infiniteKey {D} _.
Arguments pageFn {D} _ _.
Arguments getNextPageParam {D} _ _.
Arguments initialPageParam {D} _.

(** [fetchNextPage] after the pages [pages] have been fetched. *)
Definition fetchNextPage {D} (q : InfiniteQueryOptions D) (pages : list D)
  : M (list D) :=
  let pageParam :=
    match pages with
    | [] => initialPageParam q
    | _ => getNextPageParam q pages
    end in
  page <- pageFn q pageParam ;;
  cache_settled (infiniteKey q) ;;
  ret (pages ++ [page])%list.

Definition next_page {D} (pages : list D) : Z := Z.of_nat (length pages) + 1.

(* ----------------------------------------------------------------- *)
(** *** Auth *)

Definition useCreateUserAccount : Mutation INewUser AccountResult :=
  {| mutationFn := fun user => createUserAccount user;
     onSuccess := fun _ => ret tt |}.

Definition useSignInAccount : Mutation (string * string) (option string) :=
  {| mutationFn := fun user => signInAccount (fst user) (snd user);
     onSuccess := fun _ => ret tt |}.

Definition useSignOutAccount : Mutation unit (option unit) :=
  {| mutationFn := fun _ => signOutAccount;
     onSuccess := fun _ => ret tt |}.

(* ----------------------------------------------------------------- *)
(** *** Post *)

Definition useCreatePost : Mutation INewPost (option PostDoc) :=
  {| mutationFn := fun post => createPost post;
     onSuccess := fun _ => invalidateQueries [KOp GET_HOME_FEED_POSTS] |}.

(** The hooks call the paginated reads with the page only, so the default
    page size of each read applies. *)
Definition useGetHomeFeedPosts : InfiniteQueryOptions (option (list PostDoc)) :=
  {| infiniteKey := [KOp GET_HOME_FEED_POSTS];
     pageFn := fun pageParam => getHomeFeedPosts pageParam 3;
     getNextPageParam := next_page;
     initialPageParam := 1 |}.

Definition useGetExplorePosts : InfiniteQueryOptions (option (list PostDoc)) :=
  {| infiniteKey := [KOp GET_EXPLORE_POSTS];
     pageFn := fun pageParam => getExplorePosts pageParam 9;
     getNextPageParam := next_page;
     initialPageParam := 1 |}.

Definition useSearchPosts (searchTerm : string)
  : QueryOptions (option (list PostDoc)) :=
  {| queryKey := [KOp SEARCH_POSTS; KString searchTerm];
     queryFn := searchPosts searchTerm;
     enabled := truthy searchTerm |}.

Definition useGetPostById (postId : option string)
  : QueryOptions (option PostDoc) :=
  {| queryKey := [KOp GET_POST_BY_ID; key_of_id postId];
     queryFn := getPostById postId;
     enabled := truthy_opt postId |}.

Definition useGetUserPosts (userId : option string)
  : QueryOptions (option (list PostDoc)) :=
  {| queryKey := [KOp GET_USER_POSTS; key_of_id userId];
     queryFn := getUserPosts userId;
     enabled := truthy_opt userId |}.

Definition useGetUserProfilePosts (userId : string)
  : InfiniteQueryOptions (option (list PostDoc)) :=
  {| infiniteKey := [KOp GET_USER_PROFILE_POSTS];
     pageFn := fun pageParam => getUserProfilePosts userId pageParam 6;
     getNextPageParam := next_page;
     initialPageParam := 1 |}.

Definition useLikePost : Mutation (string * list string) (option PostDoc) :=
  {| mutationFn := fun v => likePost (fst v) (snd v);
     onSuccess := fun data =>
       invalidateQueries
         [KOp GET_POST_BY_ID; key_of_id (option_map post_id data)] ;;
       invalidateQueries [KOp GET_HOME_FEED_POSTS] ;;
       invalidateQueries [KOp GET_CURRENT_USER] |}.

Definition useSavePost : Mutation (string * string) (option SaveDoc) :=
  {| mutationFn := fun v => savePost (fst v) (snd v);
     onSuccess := fun _ =>
       invalidateQueries [KOp GET_HOME_FEED_POSTS] ;;
       invalidateQueries [KOp GET_CURRENT_USER] |}.

Definition useDeleteSavedPost : Mutation string (option unit) :=
  {| mutationFn := fun savedRecordId => deleteSavedPost savedRecordId;
     onSuccess := fun _ =>
       invalidateQueries [KOp GET_HOME_FEED_POSTS] ;;
       invalidateQueries [KOp GET_CURRENT_USER] |}.

Definition useUpdatePost : Mutation IUpdatePost (option PostDoc) :=
  {| mutationFn := fun post => updatePost post;
     onSuccess := fun data =>
       invalidateQueries
         [KOp GET_POST_BY_ID; key_of_id (option_map post_id data)] |}.

Definition useDeletePost : Mutation (string * string) (option unit) :=
  {| mutationFn := fun v => deletePost (fst v) (snd v);
     onSuccess := fun _ => invalidateQueries [KOp GET_HOME_FEED_POSTS] |}.

(* ----------------------------------------------------------------- *)
(** *** User *)

Definition useGetCurrentUser : QueryOptions (option UserDoc) :=
  {| queryKey := [KOp GET_CURRENT_USER];
     queryFn := getCurrentUser;
     enabled := true |}.

Definition useGetUserById (userId : string) : QueryOptions (option UserDoc) :=
  {| queryKey := [KOp GET_USER_BY_ID; KString userId];
     queryFn := getUserById (Some userId);
     enabled := truthy userId |}.

Definition useGetUsers (limit : option Z)
  : QueryOptions (option (list UserDoc)) :=
  {| queryKey := [KOp GET_USERS];
     queryFn := getUsers limit;
     enabled := true |}.

Definition useGetAllUsers : InfiniteQueryOptions (option (list UserDoc)) :=
  {| infiniteKey := [KOp GET_ALL_USERS];
     pageFn := fun pageParam => getAllUsers pageParam 9;
     getNextPageParam := next_page;
     initialPageParam := 1 |}.

Definition useUpdateUser : Mutation IUpdateUser (option UserDoc) :=
  {| mutationFn := fun user => updateUser user;
     onSuccess := fun data =>
       invalidateQueries [KOp GET_CURRENT_USER] ;;
       invalidateQueries
         [KOp GET_USER_BY_ID; key_of_id (option_map user_id data)] |}.

Definition useFollowUser : Mutation (string * string) (option FollowDoc) :=
  {| mutationFn := fun v => followUser (fst v) (snd v);
     onSuccess := fun _ => invalidateQueries [KOp GET_USER_FOLLOWING] |}.

Definition useUnfollowUser : Mutation string (option unit) :=
  {| mutationFn := fun followedUserRecord => unfollowUser followedUserRecord;
     onSuccess := fun _ => invalidateQueries [KOp GET_USER_FOLLOWING] |}.

(* ================================================================= *)
(** ** Vocabulary of the statements *)

(** A list in descending order of [key]. *)
Definition descending {A} (key : A -> Z) : list A -> Prop :=
  StronglySorted (fun a b => key b <= key a).

(** The errors of the rejected calls among some events. *)
Definition rejected (evs : list Event) : list Err :=
  flat_map (fun ev => match settled ev with
                      | Rejected e => [e]
                      | _ => []
                      end) evs.

(** The number of requests to delete the file [fileId]. *)
Definition deletions_of (fileId : string) (evs : list Event) : nat :=
  length (filter (fun ev => match call ev with
                            | StorageDeleteFile f => (f =? fileId)%string
                            | _ => false
                            end) evs).

(** The world after the calls [cs] were issued and fulfilled without a
    write. *)
Definition read_calls (cs : list Call) (w : World) : World :=
  fold_left (fun w c => issued c Fulfilled (backend w) w) cs w.

(** A computation that reads the backend without writing to it, and whose
    result is a function of the backend and of how its calls settle. *)
Definition Read {A} (m : M A) : Prop :=
  (forall w, backend (snd (m w)) = backend w)
  /\ (forall w, faults w = [] -> faults (snd (m w)) = [])
  /\ (forall w1 w2,
         backend w1 = backend w2 -> faults w1 = faults w2 ->
         fst (m w1) = fst (m w2)
         /\ faults (snd (m w1)) = faults (snd (m w2))).

(** Two invocations of the paginated [read], in the worlds [w1] and [w2],
    return the same content; [read] writes nothing; and the content is the
    slice of what [candidates] fetched. *)
Definition idempotent_page {A} (read candidates : M (option (list A)))
    (page pageSize : Z) (w1 w2 : World) : Prop :=
  fst (read w1) = fst (read w2)
  /\ backend (snd (read w1)) = backend w1
  /\ exists all,
       fst (candidates w1) = Returned all
       /\ fst (read w1)
          = Returned (option_map
                        (fun l => slice l ((page - 1) * pageSize)
                                    ((page - 1) * pageSize + pageSize))
                        all).

(** What a caller can tell about the value an API function resolved to. *)
Inductive ApiResult :=
| Undefined
| Value
| ErrorValue (e : Err).

Definition of_option {A} (o : option A) : ApiResult :=
  match o with
  | Some _ => Value
  | None => Undefined
  end.

Definition of_account (r : AccountResult) : ApiResult :=
  match r with
  | SavedUser u => of_option u
  | CaughtError e => ErrorValue e
  end.

Definition resolved {A} (f : A -> ApiResult) (m : M A) : M ApiResult :=
  a <- m ;; ret (f a).

(** The exported functions of [api.ts], with their arguments. *)
Inductive ApiCall :=
| call_createUserAccount (user : INewUser)
| call_saveUserToDB (accountId email name : string)
    (imageUrl : option string) (username : string)
| call_signInAccount (email password : string)
| call_signOutAccount
| call_createPost (post : INewPost)
| call_getFollowingPosts
| call_getHomeFeedPosts (page pageSize : Z)
| call_getAllPosts
| call_getExplorePosts (page pageSize : Z)
| call_searchPosts (searchTerm : string)
| call_getPostById (postId : option string)
| call_getUserPosts (userId : option string)
| call_getUserProfilePosts (userId : string) (page pageSize : Z)
| call_likePost (postId : string) (likesArray : list string)
| call_savePost (postId userId : string)
| call_deleteSavedPost (savedRecordId : string)
| call_updatePost (post : IUpdatePost)
| call_deletePost (postId imageId : string)
| call_uploadFile (file : option File)
| call_getFilePreview (fileId : string)
| call_deleteFile (fileId : string)
| call_getCurrentUser
| call_getUserById (userId : option string)
| call_getUsers (limit : option Z)
| call_getAllUsers (page pageSize : Z)
| call_updateUser (user : IUpdateUser)
| call_followUser (userId followedUserId : string)
| call_unfollowUser (followedUserRecord : string).

Definition run_api (c : ApiCall) : M ApiResult :=
  match c with
  | call_createUserAccount user => resolved of_account (createUserAccount user)
  | call_saveUserToDB a e n i u => resolved of_option (saveUserToDB a e n i u)
  | call_signInAccount e p => resolved of_option (signInAccount e p)
  | call_signOutAccount => resolved of_option signOutAccount
  | call_createPost post => resolved of_option (createPost post)
  | call_getFollowingPosts => resolved of_option getFollowingPosts
  | call_getHomeFeedPosts p s => resolved of_option (getHomeFeedPosts p s)
  | call_getAllPosts => resolved of_option getAllPosts
  | call_getExplorePosts p s => resolved of_option (getExplorePosts p s)
  | call_searchPosts t => resolved of_option (searchPosts t)
  | call_getPostById i => resolved of_option (getPostById i)
  | call_getUserPosts i => resolved of_option (getUserPosts i)
  | call_getUserProfilePosts i p s =>
      resolved of_option (getUserProfilePosts i p s)
  | call_likePost i l => resolved of_option (likePost i l)
  | call_savePost p u => resolved of_option (savePost p u)
  | call_deleteSavedPost i => resolved of_option (deleteSavedPost i)
  | call_updatePost post => resolved of_option (updatePost post)
  | call_deletePost p i => resolved of_option (deletePost p i)
  | call_uploadFile f => resolved of_option (uploadFile f)
  | call_getFilePreview i => resolved of_option (getFilePreview i)
  | call_deleteFile i => resolved of_option (deleteFile i)
  | call_getCurrentUser => resolved of_option getCurrentUser
  | call_getUserById i => resolved of_option (getUserById i)
  | call_getUsers l => resolved of_option (getUsers l)
  | call_getAllUsers p s => resolved of_option (getAllUsers p s)
  | call_updateUser user => resolved of_option (updateUser user)
  | call_followUser u f => resolved of_option (followUser u f)
  | call_unfollowUser r => resolved of_option (unfollowUser r)
  end.

(** The remote-call errors of one invocation are swallowed: one of them is
    logged, and the function resolved to [undefined] -- or, where [surfaced]
    allows it, to that error value.  Outside the [Promise.all] fan-out
    ([fan_out]), every one of them is logged. *)
Definition swallowed (surfaced fan_out : bool) (r : Outcome ApiResult)
    (evs : list Event) (logs : list Err) : Prop :=
  rejected evs <> [] ->
  (exists e, In e (rejected evs) /\ In e logs
             /\ (r = Returned Undefined
                 \/ (surfaced = true /\ r = Returned (ErrorValue e))))
  /\ (fan_out = false -> forall e, In e (rejected evs) -> In e logs).

(** An API function swallows the errors of its remote calls: it issues
    the calls [evs], logs [logs], throws nothing but the [Error] of a
    precondition guard (and then before any call), and resolves as
    [swallowed] says. *)
Definition swallows (surfaced fan_out : bool) (m : M ApiResult) : Prop :=
  forall w, exists evs logs,
    trace (snd (m w)) = (trace w ++ evs)%list
    /\ console (snd (m w)) = (console w ++ logs)%list
    /\ (forall e, fst (m w) = Thrown e ->
                  e = ErrorCtor /\ evs = [] /\ logs = [])
    /\ swallowed surfaced fan_out (fst (m w)) evs logs.

Definition is_createUserAccount (c : ApiCall) : bool :=
  match c with
  | call_createUserAccount _ => true
  | _ => false
  end.

(** The functions that wait on the [Promise.all] of [getFollowingPosts]. *)
Definition is_fan_out (c : ApiCall) : bool :=
  match c with
  | call_getFollowingPosts | call_getHomeFeedPosts _ _ => true
  | _ => false
  end.

(** The worlds of the examples. *)
Definition sample_post (id : string) (createdAt : Z) (creator : string)
  : PostDoc :=
  {| post_id := id; post_createdAt := createdAt; post_updatedAt := createdAt;
     post_creator := creator; post_caption := "caption";
     post_imageUrl := preview_url ("img-" ++ id);
     post_imageId := "img-" ++ id; post_location := "";
     post_tags := []; post_likes := ["u1"] |}.

Definition sample_user (id accountId : string) : UserRow :=
  {| row_id := id; row_accountId := accountId; row_name := id;
     row_username := id; row_email := id; row_bio := "";
     row_imageUrl := preview_url ("avatar-" ++ id);
     row_imageId := "avatar-" ++ id |}.

Definition sample_backend : Backend :=
  {| accounts := [{| account_id := "a1"; account_email := "u1@example.org";
                     account_password := "secret"; account_name := "u1" |}];
     session := Some "a1";
     users := [sample_user "u1" "a1"; sample_user "u2" "a2";
               sample_user "u3" "a3"];
     posts := [sample_post "p1" 10 "u1"; sample_post "p2" 20 "u2";
               sample_post "p3" 30 "u3"; sample_post "p4" 40 "u2";
               sample_post "p5" 20 "u1"];
     saves := [];
     follows := [{| follow_id := "f1"; follower := "u1";
                    followedUser := "u2" |}];
     files := [("img-p1", {| file_name := "p1.png" |});
               ("avatar-u1", {| file_name := "u1.png" |})];
     now := 100 |}.

Definition sample_world (script : list Fault) : World :=
  {| backend := sample_backend; faults := script; ids := 0; console := [];
     trace := [];
     cache := [{| entry_key := [KOp GET_POST_BY_ID; KString "p1"];
                  entry_invalidated := false |};
               {| entry_key := [KOp GET_HOME_FEED_POSTS];
                  entry_invalidated := false |};
               {| entry_key := [KOp GET_CURRENT_USER];
                  entry_invalidated := false |};
               {| entry_key := [KOp GET_USER_BY_ID; KString "u1"];
                  entry_invalidated := false |};
               {| entry_key := [KOp GET_EXPLORE_POSTS];
                  entry_invalidated := false |}];
     invalidations := [] |}.

Definition sample_file : File := {| file_name := "new.png" |}.

Definition sample_new_post : INewPost :=
  {| np_userId := "u1"; np_caption := "at the lake"; np_file := [sample_file];
     np_location := "lake"; np_tags := Some "nature, travel" |}.

Definition sample_update_post : IUpdatePost :=
  {| up_postId := "p1"; up_caption := "at the lake"; up_imageId := "img-p1";
     up_imageUrl := preview_url "img-p1"; up_file := [sample_file];
     up_location := "lake"; up_tags := Some "nature, travel" |}.

Definition sample_update_user : IUpdateUser :=
  {| uu_userId := "u1"; uu_name := "u1"; uu_username := "u1";
     uu_email := "u1@example.org"; uu_bio := "hello";
     uu_imageId := "avatar-u1"; uu_imageUrl := preview_url "avatar-u1";
     uu_file := [sample_file] |}.

(** The post an invocation resolved to. *)
Definition returned_post (r : Outcome (option PostDoc)) : PostDoc :=
  match r with
  | Returned (Some p) => p
  | _ => sample_post "" 0 ""
  end.

Definition sample_new_user : INewUser :=
  {| nu_name := "u4"; nu_username := "u4"; nu_email := "u4@example.org";
     nu_password := "secret" |}.

(* ================================================================= *)
(** ** Vocabulary of the further statements *)

(** Whether the character [c] occurs in [s]. *)
Fixpoint has_char (c : ascii) (s : string) : bool :=
  match s with
  | EmptyString => false
  | String x r => Ascii.eqb x c || has_char c r
  end.

(** The calls to the storage service. *)
Definition is_storage_call (c : Call) : bool :=
  match c with
  | StorageCreateFile _ | StorageGetFilePreview _ | StorageDeleteFile _ => true
  | _ => false
  end.

(** How the [n]th of the next SDK calls settles. *)
Definition nth_fault (n : nat) (w : World) : Fault :=
  nth n (faults w) Resolves.

(** [fetchNextPage] called [n] times on a query that has no page yet. *)
Fixpoint fetch_pages {D} (q : InfiniteQueryOptions D) (n : nat)
  : M (list D) :=
  match n with
  | O => ret []
  | S k => pages <- fetch_pages q k ;; fetchNextPage q pages
  end.

(** The mutations of [queries.ts], with their variables. *)
Inductive MutationCall :=
| mutate_createUserAccount (user : INewUser)
| mutate_signInAccount (email password : string)
| mutate_signOutAccount
| mutate_createPost (post : INewPost)
| mutate_likePost (postId : string) (likesArray : list string)
| mutate_savePost (postId userId : string)
| mutate_deleteSavedPost (savedRecordId : string)
| mutate_updatePost (post : IUpdatePost)
| mutate_deletePost (postId imageId : string)
| mutate_updateUser (user : IUpdateUser)
| mutate_followUser (userId followedUserId : string)
| mutate_unfollowUser (followedUserRecord : string).

(** A mutation run for its effects. *)
Definition run {V D} (m : Mutation V D) (variables : V) : M unit :=
  mutate m variables ;; ret tt.

Definition run_mutation (c : MutationCall) : M unit :=
  match c with
  | mutate_createUserAccount user => run useCreateUserAccount user
  | mutate_signInAccount e p => run useSignInAccount (e, p)
  | mutate_signOutAccount => run useSignOutAccount tt
  | mutate_createPost post => run useCreatePost post
  | mutate_likePost i l => run useLikePost (i, l)
  | mutate_savePost p u => run useSavePost (p, u)
  | mutate_deleteSavedPost i => run useDeleteSavedPost i
  | mutate_updatePost post => run useUpdatePost post
  | mutate_deletePost p i => run useDeletePost (p, i)
  | mutate_updateUser user => run useUpdateUser user
  | mutate_followUser u f => run useFollowUser (u, f)
  | mutate_unfollowUser r => run useUnfollowUser r
  end.

(** The operation a query key starts with. *)
Definition key_operation (k : QueryKey) : option QUERY_KEYS :=
  match k with
  | KOp o :: _ => Some o
  | _ => None
  end.

(** The operations whose keys the [onSuccess] of each mutation
    invalidates, in order. *)
Definition invalidated_operations (c : MutationCall) : list QUERY_KEYS :=
  match c with
  | mutate_createUserAccount _ | mutate_signInAccount _ _
  | mutate_signOutAccount => []
  | mutate_createPost _ | mutate_deletePost _ _ => [GET_HOME_FEED_POSTS]
  | mutate_likePost _ _ =>
      [GET_POST_BY_ID; GET_HOME_FEED_POSTS; GET_CURRENT_USER]
  | mutate_savePost _ _ | mutate_deleteSavedPost _ =>
      [GET_HOME_FEED_POSTS; GET_CURRENT_USER]
  | mutate_updatePost _ => [GET_POST_BY_ID]
  | mutate_updateUser _ => [GET_CURRENT_USER; GET_USER_BY_ID]
  | mutate_followUser _ _ | mutate_unfollowUser _ => [GET_USER_FOLLOWING]
  end.

(** The operations whose cached queries no mutation names. *)
Definition never_invalidated (o : QUERY_KEYS) : bool :=
  match o with
  | GET_EXPLORE_POSTS | SEARCH_POSTS | GET_USER_POSTS
  | GET_USER_PROFILE_POSTS | GET_USERS | GET_ALL_USERS => true
  | _ => false
  end.

(** The cache after the filters [ks] were given to [invalidateQueries]. *)
Definition invalidated_by (ks : list QueryKey) (c : list CacheEntry)
  : list CacheEntry :=
  fold_left (fun c k => map (invalidate_entry k) c) ks c.

(** A computation that leaves the query cache alone. *)
Definition Silent {A} (m : M A) : Prop :=
  forall w,
    cache (snd (m w)) = cache w
    /\ invalidations (snd (m w)) = invalidations w.

(* ================================================================= *)
(** * Properties *)

(** ** The built-ins *)

Lemma firstn_min_length {A} (n : nat) (l : list A) :
  firstn (Nat.min n (length l)) l = firstn n l.
Proof.
  destruct (Nat.le_ge_cases n (length l)) as [H | H].
  - now rewrite Nat.min_l.
  - rewrite Nat.min_r by assumption.
    now rewrite firstn_all, firstn_all2.
Qed.

(** On a window that starts at a non-negative index and has a
    non-negative size, [slice] drops [start] elements and keeps the next
    [size]. *)
Lemma slice_window {A} (l : list A) (start size : Z) :
  0 <= start -> 0 <= size ->
  slice l start (start + size)
  = firstn (Z.to_nat size) (skipn (Z.to_nat start) l).
Proof.
  intros Hs Hn. unfold slice, slice_index.
  destruct (Z.ltb_spec start 0) as [? | _]; [lia |].
  destruct (Z.ltb_spec (start + size) 0) as [? | _]; [lia |].
  set (len := Z.of_nat (length l)).
  destruct (Z.le_gt_cases len start) as [Hge | Hlt].
  - rewrite (skipn_all2 l (n := Z.to_nat start)) by (subst len; lia).
    rewrite (skipn_all2 l (n := Z.to_nat (Z.min start len)))
      by (subst len; lia).
    now rewrite !firstn_nil.
  - rewrite (Z.min_l start len) by lia.
    rewrite <- (firstn_min_length (Z.to_nat size)).
    f_equal. rewrite length_skipn. subst len. lia.
Qed.

Lemma page_window_from_one {A} (l : list A) (page pageSize : Z) :
  1 <= page -> 0 <= pageSize ->
  page_window (Some l) page pageSize
  = Some (firstn (Z.to_nat pageSize)
            (skipn (Z.to_nat ((page - 1) * pageSize)) l)).
Proof.
  intros Hp Hs. unfold page_window. f_equal.
  apply slice_window; nia.
Qed.

Section SortByKey.
Context {A : Type} (key : A -> Z).

(** The comparators of the source have the shape
    [(a, b) => key(b) - key(a)]. *)
Let desc (a b : A) : Z := key b - key a.

Lemma sort_insert_perm (x : A) (l : list A) :
  Permutation (sort_insert desc x l) (x :: l).
Proof.
  induction l as [| y r IH]; simpl; [reflexivity |].
  destruct (desc x y <=? 0); [reflexivity |].
  rewrite IH. apply perm_swap.
Qed.

Lemma sort_perm (l : list A) : Permutation (sort desc l) l.
Proof.
  induction l as [| x r IH]; simpl; [constructor |].
  rewrite sort_insert_perm. now constructor.
Qed.

Lemma sort_insert_descending (x : A) (l : list A) :
  descending key l -> descending key (sort_insert desc x l).
Proof.
  unfold descending.
  induction l as [| y r IH]; intros Hl; simpl.
  - repeat constructor.
  - inversion Hl as [| ? ? Hr Hy]; subst.
    destruct (Z.leb_spec (desc x y) 0) as [Hle | Hgt]; unfold desc in *.
    + constructor; [assumption |].
      constructor; [lia |].
      eapply Forall_impl; [| exact Hy]. simpl. intros; lia.
    + constructor; [now apply IH |].
      eapply Permutation_Forall.
      * symmetry. apply sort_insert_perm.
      * constructor; [lia | assumption].
Qed.

Lemma sort_descending (l : list A) : descending key (sort desc l).
Proof.
  induction l as [| x r IH]; simpl.
  - constructor.
  - now apply sort_insert_descending.
Qed.

(** Stability: elements with the same key keep their relative order. *)
Lemma sort_insert_stable (k : Z) (x : A) (l : list A) :
  filter (fun a => key a =? k) (sort_insert desc x l)
  = filter (fun a => key a =? k) (x :: l).
Proof.
  induction l as [| y r IH]; [reflexivity |].
  cbn [sort_insert].
  destruct (Z.leb_spec (desc x y) 0) as [Hle | Hgt]; [reflexivity |].
  unfold desc in Hgt.
  cbn [filter] in *. rewrite IH.
  destruct (Z.eqb_spec (key y) k), (Z.eqb_spec (key x) k);
    try reflexivity; lia.
Qed.

Lemma sort_stable (k : Z) (l : list A) :
  filter (fun a => key a =? k) (sort desc l)
  = filter (fun a => key a =? k) l.
Proof.
  induction l as [| x r IH]; [reflexivity |].
  cbn [sort fold_right]. rewrite sort_insert_stable.
  cbn [filter]. fold (sort desc r). now rewrite IH.
Qed.
End SortByKey.

Example split_example :
  split ","%char (replace_spaces "nature, travel") = ["nature"; "travel"].
Proof. reflexivity. Qed.

Example slice_negative_example :
  slice [1; 2; 3; 4] (-6) (-3) = [1].
Proof. reflexivity. Qed.

(* ================================================================= *)
(** ** Running the monad *)

Ltac js := cbv beta iota delta [bind ret try_catch require property throw].

Lemma sdk_fulfilled {T} c (op : Backend -> Err + T * Backend) w t b' :
  faults w = [] -> op (backend w) = inr (t, b') ->
  sdk c op w = (Returned (Some t), issued c Fulfilled b' w).
Proof. intros Hf Hop. unfold sdk. now rewrite Hf, Hop. Qed.

Lemma read_calls_backend cs : forall w, backend (read_calls cs w) = backend w.
Proof.
  unfold read_calls.
  induction cs as [| c r IH]; intros w; simpl; [reflexivity |].
  now rewrite IH.
Qed.

Lemma read_calls_faults cs :
  forall w, faults w = [] -> faults (read_calls cs w) = [].
Proof.
  unfold read_calls.
  induction cs as [| c r IH]; intros w H; simpl; [assumption |].
  apply IH. simpl. now rewrite H.
Qed.

Lemma read_calls_trace cs :
  forall w,
    map call (trace (read_calls cs w)) = (map call (trace w) ++ cs)%list.
Proof.
  unfold read_calls.
  induction cs as [| c r IH]; intros w; simpl.
  - now rewrite app_nil_r.
  - rewrite IH. simpl. rewrite map_app. simpl. now rewrite <- app_assoc.
Qed.

Lemma read_calls_app cs1 cs2 w :
  read_calls cs2 (read_calls cs1 w) = read_calls (cs1 ++ cs2) w.
Proof. unfold read_calls. now rewrite fold_left_app. Qed.

(** *** The home feed when every call is fulfilled *)

Lemma getCurrentUser_fulfilled w a :
  faults w = [] -> current_account (backend w) = Some a ->
  getCurrentUser w
  = (Returned
       (hd_error
          (map (expand_user (backend w))
             (filter (fun u => row_accountId u =? account_id a)%string
                (users (backend w))))),
     read_calls
       [AccountGet;
        ListDocuments usersC [Query_equal "accountId" (account_id a)]] w).
Proof.
  intros Hf Ha.
  unfold getCurrentUser, account_get. js.
  rewrite (sdk_fulfilled _ _ w a (backend w)) by (assumption || now rewrite Ha).
  unfold databases_listDocuments_users.
  erewrite sdk_fulfilled; [reflexivity | cbn; now rewrite Hf | reflexivity].
Qed.

Lemma Promise_all_fulfilled (userIds : list string) : forall w,
  faults w = [] ->
  Promise_all
    (map (fun userId =>
            databases_listDocuments_posts [Query_equal "creator" userId])
       userIds) w
  = (Returned (map (fun userId => Some (posts_of (backend w) userId)) userIds),
     read_calls
       (map (fun userId => ListDocuments postsC [Query_equal "creator" userId])
          userIds) w).
Proof.
  induction userIds as [| u r IH]; intros w Hf; [reflexivity |].
  cbn [map Promise_all]. unfold databases_listDocuments_posts at 1.
  erewrite sdk_fulfilled; [| assumption | reflexivity].
  rewrite IH by (cbn; now rewrite Hf).
  reflexivity.
Qed.

Lemma flatMap_documents_defined (ls : list (list PostDoc)) w :
  flatMap_documents (map Some ls) w = (Returned (concat ls), w).
Proof.
  induction ls as [| l r IH]; [reflexivity |].
  cbn [map flatMap_documents concat]. js. now rewrite IH.
Qed.

Lemma getFollowingPosts_fulfilled w a u :
  faults w = [] -> current_account (backend w) = Some a ->
  hd_error (filter (fun r => row_accountId r =? account_id a)%string
              (users (backend w))) = Some u ->
  let userIds := userIds_of (expand_user (backend w) u) in
  getFollowingPosts w
  = (Returned
       (Some (sort by_createdAt_desc
                (flat_map (posts_of (backend w)) userIds))),
     read_calls
       ([AccountGet;
         ListDocuments usersC [Query_equal "accountId" (account_id a)]]
        ++ map (fun userId =>
                  ListDocuments postsC [Query_equal "creator" userId])
             userIds) w).
Proof.
  intros Hf Ha Hu userIds.
  unfold getFollowingPosts. js.
  rewrite (getCurrentUser_fulfilled w a Hf Ha).
  destruct (filter _ (users (backend w))) as [| u' rows] eqn:Hrows;
    [discriminate |].
  injection Hu as ->. cbn [map hd_error]. js.
  rewrite Promise_all_fulfilled by now apply read_calls_faults.
  rewrite read_calls_backend, read_calls_app.
  rewrite <- (map_map (posts_of (backend w)) Some).
  rewrite flatMap_documents_defined. rewrite <- flat_map_concat_map.
  reflexivity.
Qed.

(** C1.  When every remote call is fulfilled, the home feed of the
    signed-in user is the page window of the merged list: the posts listed
    for each followed user and for the user, flattened, in descending order
    of creation time.  One list query per followed user and one for the
    user are issued, after the two calls that fetch the current user; from
    page 1 on, the window drops [(page - 1) * pageSize] posts and keeps the
    next [pageSize]. *)
Theorem home_feed_is_window_of_sorted_merge :
  forall w a u (page pageSize : Z),
    faults w = [] ->
    current_account (backend w) = Some a ->
    hd_error (filter (fun r => row_accountId r =? account_id a)%string
                (users (backend w))) = Some u ->
    let b := backend w in
    let followed := map followedUser (following (expand_user b u)) in
    let fetched :=
      (flat_map (posts_of b) followed ++ posts_of b (row_id u))%list in
    let merged := sort by_createdAt_desc fetched in
    let w' := snd (getHomeFeedPosts page pageSize w) in
    fst (getHomeFeedPosts page pageSize w)
    = Returned (Some (slice merged ((page - 1) * pageSize)
                        ((page - 1) * pageSize + pageSize)))
    /\ Permutation merged fetched
    /\ descending post_createdAt merged
    /\ (forall t, filter (fun p => post_createdAt p =? t) merged
                  = filter (fun p => post_createdAt p =? t) fetched)
    /\ (1 <= page -> 0 <= pageSize ->
        slice merged ((page - 1) * pageSize) ((page - 1) * pageSize + pageSize)
        = firstn (Z.to_nat pageSize)
            (skipn (Z.to_nat ((page - 1) * pageSize)) merged))
    /\ map call (trace w')
       = (map call (trace w)
          ++ [AccountGet;
              ListDocuments usersC [Query_equal "accountId" (account_id a)]]
          ++ map (fun userId =>
                    ListDocuments postsC [Query_equal "creator" userId])
               (followed ++ [row_id u]))%list
    /\ backend w' = b.
Proof.
  intros w a u page pageSize Hf Ha Hu b followed fetched merged w'.
  assert (Hrun := getFollowingPosts_fulfilled w a u Hf Ha Hu).
  cbv zeta in Hrun.
  assert (Hflat : flat_map (posts_of b) (userIds_of (expand_user b u))
                  = fetched).
  { unfold userIds_of, fetched, followed, user_id. rewrite flat_map_app.
    simpl. now rewrite app_nil_r. }
  fold b in Hrun. rewrite Hflat in Hrun. fold merged in Hrun.
  subst w'. unfold getHomeFeedPosts. js. rewrite Hrun.
  cbn [fst snd page_window].
  repeat split.
  - apply (sort_perm post_createdAt).
  - apply (sort_descending post_createdAt).
  - intros t. apply (sort_stable post_createdAt).
  - intros Hp Hs. apply slice_window; nia.
  - now rewrite read_calls_trace.
  - apply read_calls_backend.
Qed.

Lemma home_feed_is_window_of_sorted_merge_witness :
  fst (getHomeFeedPosts 1 3 (sample_world []))
  = Returned (Some [sample_post "p4" 40 "u2"; sample_post "p2" 20 "u2";
                    sample_post "p5" 20 "u1"]).
Proof.
  pose proof (home_feed_is_window_of_sorted_merge (sample_world [])
                {| account_id := "a1"; account_email := "u1@example.org";
                   account_password := "secret"; account_name := "u1" |}
                (sample_user "u1" "a1") 1 3
                eq_refl eq_refl eq_refl) as H.
  cbv zeta in H. destruct H as [H _]. rewrite H. vm_compute. reflexivity.
Defined.

(* ================================================================= *)
(** ** Reads *)

Lemma Read_ret {A} (a : A) : Read (ret a).
Proof. repeat split; auto. Qed.

Lemma Read_throw {A} (e : Err) : Read (@throw A e).
Proof. repeat split; auto. Qed.

Lemma Read_console_log (e : Err) : Read (console_log e).
Proof. repeat split; auto. Qed.

Lemma Read_bind {A B} (m : M A) (k : A -> M B) :
  Read m -> (forall a, Read (k a)) -> Read (bind m k).
Proof.
  intros (Hb & He & Hd) Hk. unfold bind. repeat split.
  - intros w. specialize (Hb w).
    destruct (m w) as [[a | e] w']; cbn in *; [| assumption].
    destruct (Hk a) as (Hkb & _). now rewrite Hkb.
  - intros w Hw. specialize (He w Hw).
    destruct (m w) as [[a | e] w']; cbn in *; [| assumption].
    destruct (Hk a) as (_ & Hke & _). now apply Hke.
  - pose proof (Hb w1) as B1. pose proof (Hb w2) as B2.
    destruct (Hd w1 w2 H H0) as [Hr Hf].
    destruct (m w1) as [[a1 | e1] u1], (m w2) as [[a2 | e2] u2];
      cbn in *; try congruence.
    injection Hr as ->. destruct (Hk a2) as (_ & _ & Hkd).
    apply Hkd; congruence.
  - pose proof (Hb w1) as B1. pose proof (Hb w2) as B2.
    destruct (Hd w1 w2 H H0) as [Hr Hf].
    destruct (m w1) as [[a1 | e1] u1] eqn:E1, (m w2) as [[a2 | e2] u2] eqn:E2;
      cbn in *; try congruence.
    injection Hr as ->. destruct (Hk a2) as (_ & _ & Hkd).
    apply Hkd; congruence.
Qed.

Lemma Read_try_catch {A} (body : M A) (handler : Err -> M A) :
  Read body -> (forall e, Read (handler e)) -> Read (try_catch body handler).
Proof.
  intros (Hb & He & Hd) Hk. unfold try_catch. repeat split.
  - intros w. specialize (Hb w).
    destruct (body w) as [[a | e] w']; cbn in *; [assumption |].
    destruct (Hk e) as (Hkb & _). now rewrite Hkb.
  - intros w Hw. specialize (He w Hw).
    destruct (body w) as [[a | e] w']; cbn in *; [assumption |].
    destruct (Hk e) as (_ & Hke & _). now apply Hke.
  - pose proof (Hb w1) as B1. pose proof (Hb w2) as B2.
    destruct (Hd w1 w2 H H0) as [Hr Hf].
    destruct (body w1) as [[a1 | e1] u1], (body w2) as [[a2 | e2] u2];
      cbn in *; try congruence.
    injection Hr as ->. destruct (Hk e2) as (_ & _ & Hkd).
    apply Hkd; congruence.
  - pose proof (Hb w1) as B1. pose proof (Hb w2) as B2.
    destruct (Hd w1 w2 H H0) as [Hr Hf].
    destruct (body w1) as [[a1 | e1] u1], (body w2) as [[a2 | e2] u2];
      cbn in *; try congruence.
    injection Hr as ->. destruct (Hk e2) as (_ & _ & Hkd).
    apply Hkd; congruence.
Qed.

(** An SDK call whose backend operation leaves the backend as it is. *)
Lemma Read_sdk {T} (c : Call) (op : Backend -> Err + T * Backend) :
  (forall b t b', op b = inr (t, b') -> b' = b) -> Read (sdk c op).
Proof.
  intros Hop. unfold sdk. repeat split.
  - intros w. destruct (hd Resolves (faults w)); try reflexivity.
    destruct (op (backend w)) as [e | [t b']] eqn:E; [reflexivity |].
    cbn. eauto.
  - intros w Hw. rewrite Hw. cbn.
    destruct (op (backend w)) as [e | [t b']]; cbn; now rewrite Hw.
  - rewrite H, H0. destruct (hd Resolves (faults w2)); try reflexivity.
    now destruct (op (backend w2)) as [e | [t b']].
  - rewrite H, H0.
    destruct (hd Resolves (faults w2)); cbn; rewrite ?H0; try reflexivity.
    destruct (op (backend w2)) as [e | [t b']]; cbn; now rewrite H0.
Qed.

Lemma Read_Promise_all {A} (ps : list (M A)) :
  Forall Read ps -> Read (Promise_all ps).
Proof.
  induction 1 as [| p r Hp _ IH]; [apply Read_ret |].
  destruct Hp as (Hb & He & Hd). destruct IH as (Ib & Ie & Id).
  cbn [Promise_all]. repeat split.
  - intros w. specialize (Hb w).
    destruct (p w) as [[a | e] w1]; cbn in *.
    + specialize (Ib w1).
      destruct (Promise_all r w1) as [[l | e] w2]; cbn in *; congruence.
    + rewrite Ib. assumption.
  - intros w Hw. specialize (He w Hw).
    destruct (p w) as [[a | e] w1]; cbn in *.
    + specialize (Ie w1 He).
      now destruct (Promise_all r w1) as [[l | e] w2].
    + now apply Ie.
  - pose proof (Hb w1) as B1. pose proof (Hb w2) as B2.
    destruct (Hd w1 w2 H H0) as [Hr Hf].
    destruct (p w1) as [[a1 | e1] u1], (p w2) as [[a2 | e2] u2];
      cbn in *; try congruence.
    + injection Hr as ->.
      destruct (Id u1 u2) as [Ir _]; [congruence | assumption |].
      destruct (Promise_all r u1) as [[l1 | x1] v1],
               (Promise_all r u2) as [[l2 | x2] v2]; cbn in *; congruence.
  - pose proof (Hb w1) as B1. pose proof (Hb w2) as B2.
    destruct (Hd w1 w2 H H0) as [Hr Hf].
    destruct (p w1) as [[a1 | e1] u1], (p w2) as [[a2 | e2] u2];
      cbn in *; try congruence.
    + destruct (Id u1 u2) as [Ir If]; [congruence | assumption |].
      destruct (Promise_all r u1) as [[l1 | x1] v1],
               (Promise_all r u2) as [[l2 | x2] v2]; cbn in *; congruence.
    + destruct (Id u1 u2) as [_ If]; [congruence | assumption |].
      assumption.
Qed.

Lemma Read_require {A} (o : option A) : Read (require o).
Proof. destruct o; [apply Read_ret | apply Read_throw]. Qed.

Lemma Read_property {A} (o : option A) : Read (property o).
Proof. destruct o; [apply Read_ret | apply Read_throw]. Qed.

Lemma Read_flatMap_documents fetchPosts : Read (flatMap_documents fetchPosts).
Proof.
  induction fetchPosts as [| c r IH]; [apply Read_ret |].
  cbn [flatMap_documents].
  apply Read_bind; [apply Read_property | intros d].
  apply Read_bind; [assumption | intros ds]. apply Read_ret.
Qed.

Create HintDb reads.
#[local] Hint Resolve Read_ret Read_throw Read_console_log Read_require
  Read_property Read_flatMap_documents : reads.

(** Composite reads are handled structurally. *)
Ltac read_step :=
  match goal with
  | |- Read (bind _ _) => apply Read_bind; [| intro]
  | |- Read (try_catch _ _) => apply Read_try_catch; [| intro]
  | |- Read (sdk _ _) =>
      apply Read_sdk;
      let b := fresh "b" in let t := fresh "t" in let b' := fresh "b'" in
      let H := fresh "H" in
      intros b t b' H;
      repeat match type of H with
             | context [match ?x with _ => _ end] => destruct x
             end;
      congruence
  | |- Read (match ?x with _ => _ end) => destruct x
  | |- Read (if ?x then _ else _) => destruct x
  | |- Read _ => solve [auto with reads]
  end.

Lemma Read_getCurrentUser : Read getCurrentUser.
Proof.
  unfold getCurrentUser, account_get, databases_listDocuments_users.
  repeat read_step.
Qed.

Lemma Read_getFollowingPosts : Read getFollowingPosts.
Proof.
  unfold getFollowingPosts.
  apply Read_try_catch; [| intro; repeat read_step].
  apply Read_bind; [apply Read_getCurrentUser | intro].
  apply Read_bind; [auto with reads | intro].
  apply Read_bind; [| intro; repeat read_step].
  apply Read_Promise_all, Forall_forall. intros p Hp.
  apply in_map_iff in Hp as (userId & <- & _).
  unfold databases_listDocuments_posts. repeat read_step.
Qed.

Lemma Read_getAllPosts : Read getAllPosts.
Proof.
  unfold getAllPosts, databases_listDocuments_posts. repeat read_step.
Qed.

Lemma Read_getUserPosts userId : Read (getUserPosts userId).
Proof.
  unfold getUserPosts, databases_listDocuments_posts. repeat read_step.
Qed.

(** A [try]/[catch] whose handler logs and returns never throws. *)
Lemma try_catch_returns {A} (body : M A) (v : A) w :
  exists a,
    fst (try_catch body (fun error => console_log error ;; ret v) w)
    = Returned a.
Proof.
  unfold try_catch.
  destruct (body w) as [[a | e] w']; eexists; reflexivity.
Qed.

Lemma paginated_read {A} (candidates : M (option (list A)))
    (page pageSize : Z) (w1 w2 : World) :
  Read candidates ->
  (forall w, exists all, fst (candidates w) = Returned all) ->
  backend w1 = backend w2 -> faults w1 = faults w2 ->
  idempotent_page
    (try_catch (allPosts <- candidates ;;
                ret (page_window allPosts page pageSize))
       (fun error => console_log error ;; ret None))
    candidates page pageSize w1 w2.
Proof.
  intros HR Hret Hb Hf.
  assert (Hread : Read (try_catch (allPosts <- candidates ;;
                                   ret (page_window allPosts page pageSize))
                          (fun error => console_log error ;; ret None)))
    by repeat read_step; auto.
  destruct Hread as (Rb & _ & Rd).
  split; [now apply Rd | split; [apply Rb |]].
  destruct (Hret w1) as [all Hall]. exists all. split; [assumption |].
  js. destruct (candidates w1) as [[x | e] w']; cbn in *; [| discriminate].
  injection Hall as ->. now destruct all.
Qed.

(** C7.  The three paginated reads are idempotent.  Two invocations with
    the same page and page size, on the same backend data and with their
    remote calls settling the same way, return identical content; a read
    leaves the backend as it was; and the content is
    [slice((page - 1) * pageSize, (page - 1) * pageSize + pageSize)] of
    the whole candidate list the read fetched. *)
Theorem paginated_reads_idempotent :
  forall (page pageSize : Z) (userId : string) (w1 w2 : World),
    backend w1 = backend w2 ->
    faults w1 = faults w2 ->
    idempotent_page (getHomeFeedPosts page pageSize) getFollowingPosts
      page pageSize w1 w2
    /\ idempotent_page (getExplorePosts page pageSize) getAllPosts
         page pageSize w1 w2
    /\ idempotent_page (getUserProfilePosts userId page pageSize)
         (getUserPosts (Some userId)) page pageSize w1 w2.
Proof.
  intros page pageSize userId w1 w2 Hb Hf. refine (conj _ (conj _ _)).
  - apply (paginated_read getFollowingPosts);
      auto using Read_getFollowingPosts.
    intros w. apply try_catch_returns.
  - apply (paginated_read getAllPosts); auto using Read_getAllPosts.
    intros w. apply try_catch_returns.
  - apply (paginated_read (getUserPosts (Some userId)));
      auto using Read_getUserPosts.
    intros w. unfold getUserPosts.
    destruct (negb (truthy_opt (Some userId))); [now exists None |].
    apply try_catch_returns.
Qed.

(** Asking for the same page twice in a row, when no call fails. *)
Lemma read_twice {A} (m : M A) (w : World) :
  Read m -> faults w = [] -> fst (m (snd (m w))) = fst (m w).
Proof.
  intros (Hb & He & Hd) Hw.
  apply Hd; [apply Hb | rewrite Hw; now apply He].
Qed.

Lemma paginated_reads_idempotent_witness :
  fst (getHomeFeedPosts 2 3 (snd (getHomeFeedPosts 2 3 (sample_world []))))
  = fst (getHomeFeedPosts 2 3 (sample_world [])).
Proof.
  symmetry.
  exact (proj1 (proj1 (paginated_reads_idempotent 2 3 "u1" (sample_world [])
                         (snd (getHomeFeedPosts 2 3 (sample_world [])))
                         eq_refl eq_refl))).
Defined.

Lemma Read_page {A} (candidates : M (option (list A))) (page pageSize : Z) :
  Read candidates ->
  Read (try_catch (allPosts <- candidates ;;
                   ret (page_window allPosts page pageSize))
          (fun error => console_log error ;; ret None)).
Proof. intros H. repeat read_step; auto. Qed.

(** The same page of the home feed, fetched again right away. *)
Lemma home_feed_twice (page pageSize : Z) (w : World) :
  faults w = [] ->
  fst (getHomeFeedPosts page pageSize (snd (getHomeFeedPosts page pageSize w)))
  = fst (getHomeFeedPosts page pageSize w).
Proof.
  apply read_twice. apply Read_page, Read_getFollowingPosts.
Qed.

(* ================================================================= *)
(** ** The error policy: case analysis on how each call settles *)

Arguments unique_id : simpl never.
Arguments preview_url : simpl never.
Arguments userIds_of : simpl never.
Arguments Promise_all : simpl never.
Arguments flatMap_documents : simpl never.

Create HintDb api.
#[local] Hint Unfold resolved createUserAccount saveUserToDB signInAccount
  signOutAccount createPost getAllPosts getExplorePosts searchPosts getPostById
  getUserPosts getUserProfilePosts likePost savePost deleteSavedPost updatePost
  deletePost uploadFile getFilePreview deleteFile getCurrentUser getUserById
  getUsers getAllUsers updateUser followUser unfollowUser replace_image
  account_create account_createEmailSession account_deleteSession account_get
  account_updateName avatars_getInitials databases_createDocument_users
  databases_createDocument_posts databases_createDocument_saves
  databases_createDocument_followers databases_getDocument_posts
  databases_getDocument_users databases_listDocuments_posts
  databases_listDocuments_users databases_updateDocument_posts
  databases_updateDocument_users databases_deleteDocument_posts
  databases_deleteDocument_saves databases_deleteDocument_followers
  storage_createFile storage_getFilePreview storage_deleteFile
  ID_unique console_log sdk : api.

(** A scrutinee on which evaluation is stuck: an input, a lookup in the
    backend, the next entry of the script. *)
Ltac stuck x :=
  lazymatch x with
  | match _ with _ => _ end => fail
  | _ =>
      lazymatch type of x with
      | (_ * _)%type => fail
      | (_ + _)%type => fail
      | Outcome _ => fail
      | _ => idtac
      end
  end.

Ltac settle :=
  repeat match goal with
  | |- context [hd Resolves ?fs] =>
      is_var fs; destruct fs as [| [| | ?] ?]; cbn
  | |- context [match ?x with _ => _ end] => stuck x; destruct x eqn:?; cbn
  end.

Ltac grown :=
  first [symmetry; apply app_nil_r | rewrite <- ?app_assoc; reflexivity].

Ltac leaf :=
  do 2 eexists; cbn;
  split; [grown |];
  split; [grown |];
  split; [intros ? ?;
          first [discriminate | (split; [congruence | split; reflexivity])] |];
  unfold swallowed; cbn; intros Hrej;
  first [ now contradiction Hrej
        | split; [eexists; split; [left; reflexivity |];
                  split; [cbn; tauto | cbn; tauto]
                 | intros _ ? ?; tauto ] ].

Ltac run_api_cases :=
  intros [b fs n con tr ca inv]; autounfold with api; js; cbn; settle; leaf.

Lemma swallows_createUserAccount user :
  swallows true false (resolved of_account (createUserAccount user)).
Proof. run_api_cases. Qed.

Lemma swallows_saveUserToDB acc em nm img un :
  swallows false false (resolved of_option (saveUserToDB acc em nm img un)).
Proof. run_api_cases. Qed.

Lemma swallows_signInAccount e p :
  swallows false false (resolved of_option (signInAccount e p)).
Proof. run_api_cases. Qed.

Lemma swallows_signOutAccount :
  swallows false false (resolved of_option signOutAccount).
Proof. run_api_cases. Qed.

Lemma swallows_createPost post :
  swallows false false (resolved of_option (createPost post)).
Proof. run_api_cases. Qed.

Lemma swallows_getAllPosts :
  swallows false false (resolved of_option getAllPosts).
Proof. run_api_cases. Qed.

Lemma swallows_getExplorePosts p s :
  swallows false false (resolved of_option (getExplorePosts p s)).
Proof. run_api_cases. Qed.

Lemma swallows_searchPosts t :
  swallows false false (resolved of_option (searchPosts t)).
Proof. run_api_cases. Qed.

Lemma swallows_getPostById i :
  swallows false false (resolved of_option (getPostById i)).
Proof. run_api_cases. Qed.

Lemma swallows_getUserPosts i :
  swallows false false (resolved of_option (getUserPosts i)).
Proof. run_api_cases. Qed.

Lemma swallows_getUserProfilePosts i p s :
  swallows false false (resolved of_option (getUserProfilePosts i p s)).
Proof. run_api_cases. Qed.

Lemma swallows_likePost i l :
  swallows false false (resolved of_option (likePost i l)).
Proof. run_api_cases. Qed.

Lemma swallows_savePost p u :
  swallows false false (resolved of_option (savePost p u)).
Proof. run_api_cases. Qed.

Lemma swallows_deleteSavedPost i :
  swallows false false (resolved of_option (deleteSavedPost i)).
Proof. run_api_cases. Qed.

Lemma swallows_updatePost post :
  swallows false false (resolved of_option (updatePost post)).
Proof. run_api_cases. Qed.

Lemma swallows_deletePost p i :
  swallows false false (resolved of_option (deletePost p i)).
Proof. run_api_cases. Qed.

Lemma swallows_uploadFile f :
  swallows false false (resolved of_option (uploadFile f)).
Proof. run_api_cases. Qed.

Lemma swallows_getFilePreview i :
  swallows false false (resolved of_option (getFilePreview i)).
Proof. run_api_cases. Qed.

Lemma swallows_deleteFile i :
  swallows false false (resolved of_option (deleteFile i)).
Proof. run_api_cases. Qed.

Lemma swallows_getCurrentUser :
  swallows false false (resolved of_option getCurrentUser).
Proof. run_api_cases. Qed.

Lemma swallows_getUserById i :
  swallows false false (resolved of_option (getUserById i)).
Proof. run_api_cases. Qed.

Lemma swallows_getUsers l :
  swallows false false (resolved of_option (getUsers l)).
Proof. run_api_cases. Qed.

Lemma swallows_getAllUsers p s :
  swallows false false (resolved of_option (getAllUsers p s)).
Proof. run_api_cases. Qed.

Lemma swallows_updateUser user :
  swallows false false (resolved of_option (updateUser user)).
Proof. run_api_cases. Qed.

Lemma swallows_followUser u f :
  swallows false false (resolved of_option (followUser u f)).
Proof. run_api_cases. Qed.

Lemma swallows_unfollowUser r :
  swallows false false (resolved of_option (unfollowUser r)).
Proof. run_api_cases. Qed.

(** The fan-out of [getFollowingPosts]: one event per list query, nothing
    logged; a rejection of the whole is the error of a rejected query. *)
Lemma Promise_all_events (userIds : list string) : forall w,
  let fan_out :=
    Promise_all
      (map (fun userId =>
              databases_listDocuments_posts [Query_equal "creator" userId])
         userIds) in
  exists evs,
    trace (snd (fan_out w)) = (trace w ++ evs)%list
    /\ console (snd (fan_out w)) = console w
    /\ match fst (fan_out w) with
       | Returned _ => rejected evs = []
       | Thrown e => In e (rejected evs)
       end.
Proof.
  induction userIds as [| u r IH]; intros w; cbv zeta in *.
  - exists []. cbn. now rewrite app_nil_r.
  - cbn [map]. unfold Promise_all; fold (@Promise_all (option (list PostDoc))).
    destruct (databases_listDocuments_posts [Query_equal "creator" u] w)
      as [o w1] eqn:E.
    assert (H1 : exists ev,
               trace w1 = (trace w ++ [ev])%list /\ console w1 = console w
               /\ match o with
                  | Returned _ => rejected [ev] = []
                  | Thrown e => rejected [ev] = [e]
                  end).
    { revert E. destruct w as [b fs n con tr ca inv].
      unfold databases_listDocuments_posts, sdk. cbn.
      destruct fs as [| [| | code] fs]; cbn; intros [= <- <-];
        eexists; cbn; auto. }
    destruct H1 as (ev & Ht & Hc & Ho).
    destruct (IH w1) as (evs & It & Ic & Io).
    exists (ev :: evs).
    unfold rejected in *. cbn in Ho. rewrite app_nil_r in Ho.
    destruct o as [a | e].
    + destruct (Promise_all _ w1) as [[l | e] w2]; cbn in *;
        (split; [rewrite It, Ht, <- app_assoc; reflexivity |]);
        (split; [congruence |]).
      * now rewrite Ho.
      * apply in_or_app. now right.
    + cbn. split; [rewrite It, Ht, <- app_assoc; reflexivity |].
      split; [congruence |]. rewrite Ho. now left.
Qed.

Lemma flatMap_documents_pure fetchPosts w :
  snd (flatMap_documents fetchPosts w) = w
  /\ forall e, fst (flatMap_documents fetchPosts w) = Thrown e -> e = TypeError.
Proof.
  induction fetchPosts as [| c r [IH1 IH2]];
    [split; [reflexivity | discriminate] |].
  unfold flatMap_documents; fold flatMap_documents. js.
  destruct c as [d |]; [| split; [reflexivity | now intros e [= <-]]].
  destruct (flatMap_documents r w) as [[ds | e] w']; cbn in *; subst;
    split; auto; discriminate.
Qed.

Lemma swallows_getFollowingPosts :
  swallows false true (resolved of_option getFollowingPosts).
Proof.
  intros [b fs n con tr ca inv].
  unfold getFollowingPosts. autounfold with api. js. cbn. settle; try leaf.
  all: match goal with
       | |- context [Promise_all (map _ ?ids) ?w0] =>
           destruct (Promise_all_events ids w0) as (evs & Ht & Hc & Hr);
           cbv zeta in *;
           destruct (Promise_all _ w0) as [[l | e] w2]; cbn in *
       end.
  all: try (destruct (flatMap_documents_pure l w2) as [Hs Hty];
            destruct (flatMap_documents l w2) as [[x | e] w3]; cbn in *;
            subst w3; try specialize (Hty e eq_refl); subst).
  all: rewrite ?Ht, ?Hc.
  all: eexists; eexists; cbn; rewrite ?Ht, ?Hc;
       (split; [rewrite <- ?app_assoc; reflexivity |]);
       (split; [first [symmetry; apply app_nil_r | reflexivity] |]);
       (split; [discriminate |]);
       unfold swallowed, rejected in *; cbn; intros Hrej.
  all: try (rewrite Hr in Hrej; now contradiction Hrej).
  all: split; [| discriminate].
  all: exists e; repeat split; auto; now left.
Qed.

Lemma swallows_page {A} (m : M (option (list A))) (page pageSize : Z)
    (fan_out : bool) :
  swallows false fan_out (resolved of_option m) ->
  swallows false fan_out
    (resolved of_option
       (try_catch (all <- m ;; ret (page_window all page pageSize))
          (fun error => console_log error ;; ret None))).
Proof.
  intros H w. destruct (H w) as (evs & logs & Ht & Hc & Hthrow & Hsw).
  unfold resolved in *. revert Ht Hc Hthrow Hsw. js.
  destruct (m w) as [[[l |] | e] w']; cbn; intros Ht Hc Hthrow Hsw.
  - exists evs, logs. split; [assumption |]. split; [assumption |].
    split; [discriminate | exact Hsw].
  - exists evs, logs. split; [assumption |]. split; [assumption |].
    split; [discriminate | exact Hsw].
  - destruct (Hthrow e eq_refl) as (-> & -> & ->).
    exists [], [ErrorCtor]. cbn. rewrite Ht, Hc, !app_nil_r.
    split; [reflexivity |]. split; [reflexivity |].
    split; [discriminate |]. intros Hrej. now contradiction Hrej.
Qed.

Lemma swallows_getHomeFeedPosts p s :
  swallows false true (resolved of_option (getHomeFeedPosts p s)).
Proof. apply swallows_page, swallows_getFollowingPosts. Qed.

(** X23.  The error policy as the 28 exported functions have it.  No
    remote-call error is re-thrown: the only thing a function throws is the
    [Error] of its precondition guard, before any call was issued.  When a
    remote call of the invocation was rejected, the error of a rejected call
    is logged and the function resolves to [undefined]; the one function
    that may resolve to the error value instead is [createUserAccount].
    Every rejected call's error is logged, but for the list queries that
    [getFollowingPosts] (and so [getHomeFeedPosts]) issues together, of
    which one rejection is logged. *)
Theorem remote_errors_are_swallowed :
  forall (c : ApiCall),
    swallows (is_createUserAccount c) (is_fan_out c) (run_api c).
Proof.
  destruct c; cbn [run_api is_createUserAccount is_fan_out];
    auto using swallows_createUserAccount, swallows_saveUserToDB,
      swallows_signInAccount, swallows_signOutAccount, swallows_createPost,
      swallows_getFollowingPosts, swallows_getHomeFeedPosts,
      swallows_getAllPosts, swallows_getExplorePosts, swallows_searchPosts,
      swallows_getPostById, swallows_getUserPosts,
      swallows_getUserProfilePosts, swallows_likePost, swallows_savePost,
      swallows_deleteSavedPost, swallows_updatePost, swallows_deletePost,
      swallows_uploadFile, swallows_getFilePreview, swallows_deleteFile,
      swallows_getCurrentUser, swallows_getUserById, swallows_getUsers,
      swallows_getAllUsers, swallows_updateUser, swallows_followUser,
      swallows_unfollowUser.
Qed.

Lemma remote_errors_are_swallowed_witness :
  fst (run_api (call_createPost sample_new_post)
         (sample_world [Resolves; Resolves; Rejects 500]))
  = Returned Undefined
  /\ In (AppwriteException 500)
       (console (snd (run_api (call_createPost sample_new_post)
                        (sample_world [Resolves; Resolves; Rejects 500])))).
Proof.
  destruct (remote_errors_are_swallowed (call_createPost sample_new_post)
              (sample_world [Resolves; Resolves; Rejects 500]))
    as (evs & logs & Ht & Hc & _ & Hsw).
  vm_compute in Ht. subst evs. rewrite Hc.
  destruct Hsw as [(e & He & Hlog & Hres) _]; [vm_compute; discriminate |].
  vm_compute in He. destruct He as [<- | []].
  split; [| exact Hlog].
  destruct Hres as [H | [H _]]; [exact H | discriminate H].
Defined.

(** Of two list queries of the fan-out that are rejected, one error is
    logged. *)
Example getFollowingPosts_logs_one_rejection :
  let w' := snd (getFollowingPosts
                   (sample_world [Resolves; Resolves; Rejects 500;
                                  Rejects 503])) in
  rejected (trace w') = [AppwriteException 500; AppwriteException 503]
  /\ console w' = [AppwriteException 500].
Proof. split; reflexivity. Qed.

(** C4.  The code at the failing input: [account.create] is rejected.
    [createUserAccount] catches the error and logs it, as every function of
    the layer does -- and then resolves to the error it caught, where the
    policy is to resolve to [undefined].  Nothing is thrown, no other call
    is issued and the backend is as it was. *)
Theorem createUserAccount_surfaces_the_caught_error :
  forall (user : INewUser) (w : World) (code : nat) (rest : list Fault),
    faults w = Rejects code :: rest ->
    let error := AppwriteException code in
    let w' := snd (createUserAccount user w) in
    fst (createUserAccount user w) = Returned (CaughtError error)
    /\ fst (run_api (call_createUserAccount user) w)
       = Returned (ErrorValue error)
    /\ console w' = (console w ++ [error])%list
    /\ trace w'
       = (trace w
          ++ [{| call := AccountCreate (unique_id (ids w)) (nu_email user);
                 settled := Rejected error |}])%list
    /\ backend w' = backend w.
Proof.
  intros user [b fs n con tr ca inv] code rest Hf. cbn in Hf. subst fs.
  repeat split.
Qed.

Lemma createUserAccount_surfaces_the_caught_error_witness :
  fst (run_api (call_createUserAccount sample_new_user)
         (sample_world [Rejects 409]))
  = Returned (ErrorValue (AppwriteException 409))
  /\ console (snd (createUserAccount sample_new_user
                     (sample_world [Rejects 409])))
     = [AppwriteException 409].
Proof.
  destruct (createUserAccount_surfaces_the_caught_error sample_new_user
              (sample_world [Rejects 409]) 409%nat [] eq_refl)
    as (_ & H1 & H2 & _).
  split; [exact H1 | exact H2].
Defined.

(** The other failing call of the same function is handled as the policy
    says: when the account was created and saving the user document is
    rejected, [saveUserToDB] logs the error and [createUserAccount]
    resolves to [undefined]. *)
Lemma createUserAccount_failed_save_resolves_undefined
    (user : INewUser) (w : World) (code : nat) (rest : list Fault) :
  faults w = Resolves :: Resolves :: Rejects code :: rest ->
  fst (run_api (call_createUserAccount user) w) = Returned Undefined
  /\ console (snd (createUserAccount user w))
     = (console w ++ [AppwriteException code])%list.
Proof.
  destruct w as [b fs n con tr ca inv]. cbn. intros ->.
  split; reflexivity.
Qed.

(* ================================================================= *)
(** ** Files and their owning records *)

Lemma file_exists_added b id f :
  file_exists (with_files (files b ++ [(id, f)]) b) id = true.
Proof.
  unfold file_exists. cbn. rewrite existsb_app. cbn.
  rewrite String.eqb_refl. now rewrite orb_true_r.
Qed.

Lemma existsb_filter_other {A} (f g : A -> bool) l :
  (forall x, f x = true -> g x = true) ->
  existsb f (filter g l) = existsb f l.
Proof.
  intros H. induction l as [| x r IH]; [reflexivity |]. cbn.
  destruct (g x) eqn:G; cbn; rewrite IH; [reflexivity |].
  destruct (f x) eqn:F; [| reflexivity]. apply H in F. congruence.
Qed.

Lemma existsb_filter_negb {A} (f : A -> bool) l :
  existsb f (filter (fun x => negb (f x)) l) = false.
Proof.
  induction l as [| x r IH]; [reflexivity |]. cbn.
  destruct (f x) eqn:F; cbn; [assumption |]. now rewrite F.
Qed.

Lemma find_post_updated (id : string) (p' : PostDoc) (l : list PostDoc) p0 :
  post_id p' = id ->
  find (fun p => post_id p =? id)%string l = Some p0 ->
  find (fun p => post_id p =? id)%string
    (map (fun x => if (post_id x =? id)%string then p' else x) l) = Some p'.
Proof.
  intros Hid. induction l as [| x r IH]; [discriminate |]. cbn.
  destruct (post_id x =? id)%string eqn:E.
  - intros _. cbn. subst id. now rewrite String.eqb_refl.
  - intros H. cbn. rewrite E. now apply IH.
Qed.

Lemma find_post_id b id p : find_post b id = Some p -> post_id p = id.
Proof.
  unfold find_post. intros H. apply find_some in H as [_ H].
  now apply String.eqb_eq.
Qed.

(** C2.  The code at the failing input: the upload and the preview
    succeed and [createDocument] is rejected.  [createPost] resolves to
    [undefined], no post is stored, no request to delete the uploaded file
    is issued, and the file is still in storage. *)
Theorem createPost_rejected_write_orphans_file :
  forall (post : INewPost) (w : World) (file : File) (code : nat)
         (rest : list Fault),
    hd_error (np_file post) = Some file ->
    faults w = Resolves :: Resolves :: Rejects code :: rest ->
    let fileId := unique_id (ids w) in
    let w' := snd (createPost post w) in
    fst (createPost post w) = Returned None
    /\ file_exists (backend w') fileId = true
    /\ posts (backend w') = posts (backend w)
    /\ exists evs,
         trace w' = (trace w ++ evs)%list
         /\ map call evs = [StorageCreateFile fileId;
                            StorageGetFilePreview fileId;
                            CreateDocument postsC (unique_id (S (ids w)))]
         /\ map settled evs
            = [Fulfilled; Fulfilled; Rejected (AppwriteException code)]
         /\ deletions_of fileId evs = 0%nat.
Proof.
  intros post w file code rest Hfile Hf fileId w'. subst fileId w'.
  destruct w as [b fs n con tr ca inv]. cbn in Hf. subst fs.
  unfold createPost. autounfold with api. js. cbn. rewrite Hfile. cbn.
  repeat split.
  - apply file_exists_added.
  - eexists. split; [rewrite <- ?app_assoc; reflexivity |]. cbn. auto.
Qed.

Lemma createPost_rejected_write_orphans_file_witness :
  fst (createPost sample_new_post
         (sample_world [Resolves; Resolves; Rejects 500]))
  = Returned None
  /\ file_exists
       (backend (snd (createPost sample_new_post
                        (sample_world [Resolves; Resolves; Rejects 500]))))
       "id0" = true.
Proof.
  destruct (createPost_rejected_write_orphans_file sample_new_post
              (sample_world [Resolves; Resolves; Rejects 500])
              sample_file 500%nat [] eq_refl eq_refl) as (H1 & H2 & _).
  split; [exact H1 | exact H2].
Defined.

Lemma deleteFile_fulfilled (fileId : string) (w : World) :
  hd Resolves (faults w) = Resolves ->
  file_exists (backend w) fileId = true ->
  deleteFile fileId w
  = (Returned (Some tt),
     issued (StorageDeleteFile fileId) Fulfilled
       (with_files (filter (fun f => negb (fst f =? fileId)%string)
                      (files (backend w))) (backend w)) w).
Proof.
  intros Hf He. unfold deleteFile, storage_deleteFile, sdk. js.
  now rewrite Hf, He.
Qed.

(** The path the source does handle: when [createDocument] resolves with a
    falsy value, the uploaded file is deleted, by one request. *)
Lemma createPost_falsy_write_deletes_file
    (post : INewPost) (w : World) (file : File) :
  hd_error (np_file post) = Some file ->
  faults w = [Resolves; Resolves; ResolvesFalsy] ->
  let fileId := unique_id (ids w) in
  let w' := snd (createPost post w) in
  fst (createPost post w) = Returned None
  /\ file_exists (backend w') fileId = false
  /\ exists evs,
       trace w' = (trace w ++ evs)%list
       /\ deletions_of fileId evs = 1%nat.
Proof.
  intros Hfile Hf fileId w'. subst fileId w'.
  destruct w as [b fs n con tr ca inv]. cbn in Hf. subst fs.
  unfold createPost. js. cbn. rewrite Hfile. cbn.
  rewrite deleteFile_fulfilled by (reflexivity || apply file_exists_added).
  cbn. repeat split.
  - unfold file_exists. cbn.
    apply (existsb_filter_negb (fun f => (fst f =? unique_id n)%string)).
  - eexists. split; [rewrite <- ?app_assoc; reflexivity |].
    unfold deletions_of. cbn. now rewrite String.eqb_refl.
Qed.

(** C3.  The code at the failing input: [updatePost] replaces the image
    and every call is fulfilled.  The post now points at the new file, the
    new file is stored -- and the old file is stored still: no request to
    delete it is issued. *)
Theorem updatePost_replacement_keeps_old_file :
  forall (post : IUpdatePost) (w : World) (file : File) (p0 : PostDoc),
    faults w = [] ->
    hd_error (up_file post) = Some file ->
    find_post (backend w) (up_postId post) = Some p0 ->
    file_exists (backend w) (up_imageId post) = true ->
    let newId := unique_id (ids w) in
    let w' := snd (updatePost post w) in
    (exists p,
        fst (updatePost post w) = Returned (Some p)
        /\ post_imageId p = newId
        /\ find_post (backend w') (up_postId post) = Some p)
    /\ file_exists (backend w') (up_imageId post) = true
    /\ file_exists (backend w') newId = true
    /\ exists evs,
         trace w' = (trace w ++ evs)%list
         /\ map call evs = [StorageCreateFile newId;
                            StorageGetFilePreview newId;
                            UpdateDocument postsC (up_postId post)]
         /\ deletions_of (up_imageId post) evs = 0%nat.
Proof.
  intros post w file p0 Hf Hfile Hpost Hold newId w'. subst newId w'.
  destruct w as [b fs n con tr ca inv]. cbn in Hf, Hpost, Hold. subst fs.
  unfold updatePost. js. cbn.
  destruct (up_file post) as [| f0 files0]; [discriminate |].
  cbn in Hfile. injection Hfile as ->. cbn.
  unfold find_post in *. cbn. rewrite Hpost. cbn.
  repeat split.
  - eexists. repeat split.
    erewrite find_post_updated; [reflexivity | | eassumption].
    cbn. now apply (find_post_id b).
  - unfold file_exists in *. cbn. rewrite existsb_app, Hold. reflexivity.
  - apply file_exists_added.
  - eexists. split; [rewrite <- ?app_assoc; reflexivity |]. cbn. auto.
Qed.

Lemma updatePost_replacement_keeps_old_file_witness :
  file_exists (backend (snd (updatePost sample_update_post (sample_world []))))
    "img-p1" = true
  /\ file_exists
       (backend (snd (updatePost sample_update_post (sample_world []))))
       "id0" = true.
Proof.
  destruct (updatePost_replacement_keeps_old_file sample_update_post
              (sample_world []) sample_file (sample_post "p1" 10 "u1")
              eq_refl eq_refl eq_refl eq_refl) as (_ & H1 & H2 & _).
  split; [exact H1 | exact H2].
Defined.

(** The failure path of [updatePost]: when [updateDocument] resolves with
    a falsy value, the file that is deleted is the old one,
    [post.imageId]; the new file stays. *)
Lemma updatePost_falsy_write_deletes_old_file
    (post : IUpdatePost) (w : World) (file : File) :
  faults w = [Resolves; Resolves; ResolvesFalsy] ->
  hd_error (up_file post) = Some file ->
  file_exists (backend w) (up_imageId post) = true ->
  up_imageId post <> unique_id (ids w) ->
  let newId := unique_id (ids w) in
  let w' := snd (updatePost post w) in
  fst (updatePost post w) = Returned None
  /\ posts (backend w') = posts (backend w)
  /\ file_exists (backend w') (up_imageId post) = false
  /\ file_exists (backend w') newId = true.
Proof.
  intros Hf Hfile Hold Hneq newId w'. subst newId w'.
  destruct w as [b fs n con tr ca inv]. cbn in Hf, Hold, Hneq. subst fs.
  unfold updatePost. js. cbn.
  destruct (up_file post) as [| f0 files0]; [discriminate |].
  cbn in Hfile. injection Hfile as ->. cbn.
  assert (Hold' : file_exists (with_files (files b ++ [(unique_id n, file)]) b)
                    (up_imageId post) = true).
  { unfold file_exists in *. cbn. now rewrite existsb_app, Hold. }
  rewrite deleteFile_fulfilled by (reflexivity || exact Hold').
  cbn. repeat split.
  - unfold file_exists. cbn.
    apply (existsb_filter_negb (fun f => (fst f =? up_imageId post)%string)).
  - unfold file_exists. cbn. rewrite existsb_filter_other.
    + rewrite existsb_app. cbn. rewrite String.eqb_refl.
      now rewrite orb_true_r.
    + intros [i f] H. cbn in *. apply String.eqb_eq in H. subst i.
      apply negb_true_iff, String.eqb_neq. congruence.
Qed.

(** The sibling [updateUser] does delete the old file once the user
    document and the account were updated. *)
Lemma updateUser_replacement_deletes_old_file
    (user : IUpdateUser) (w : World) (file : File) (u0 : UserRow)
    (a : Account) :
  faults w = [] ->
  hd_error (uu_file user) = Some file ->
  find_user (backend w) (uu_userId user) = Some u0 ->
  current_account (backend w) = Some a ->
  truthy (uu_imageId user) = true ->
  file_exists (backend w) (uu_imageId user) = true ->
  uu_imageId user <> unique_id (ids w) ->
  let newId := unique_id (ids w) in
  let w' := snd (updateUser user w) in
  file_exists (backend w') (uu_imageId user) = false
  /\ file_exists (backend w') newId = true
  /\ exists u, find_user (backend w') (uu_userId user) = Some u
               /\ row_imageId u = newId.
Proof.
  intros Hf Hfile Huser Hacc Hid Hold Hneq newId w'. subst newId w'.
  destruct w as [b fs n con tr ca inv].
  cbn in Hf, Huser, Hacc, Hold, Hneq. subst fs.
  unfold updateUser. js. cbn.
  destruct (uu_file user) as [| f0 files0]; [discriminate |].
  cbn in Hfile. injection Hfile as ->. cbn.
  unfold find_user in *. cbn. rewrite Huser. cbn.
  unfold current_account, find_account in *. cbn.
  destruct (session b) as [sid |]; [| discriminate]. rewrite Hacc. cbn.
  rewrite Hid. cbn.
  rewrite deleteFile_fulfilled;
    [| reflexivity
     | unfold file_exists in *; cbn; now rewrite existsb_app, Hold].
  cbn. unfold file_exists. cbn. repeat split.
  - apply (existsb_filter_negb (fun f => (fst f =? uu_imageId user)%string)).
  - rewrite existsb_filter_other.
    + rewrite existsb_app. cbn. rewrite String.eqb_refl.
      now rewrite orb_true_r.
    + intros [i f] H. cbn in *. apply String.eqb_eq in H. subst i.
      apply negb_true_iff, String.eqb_neq. congruence.
  - exists (set_user_fields (uu_name user) (uu_username user) (uu_email user)
              (uu_bio user) (preview_url (unique_id n)) (unique_id n) u0).
    split; [| reflexivity].
    induction (users b) as [| x r IH]; [discriminate |].
    cbn in *. destruct (row_id x =? uu_userId user)%string eqn:E.
    + injection Huser as ->. cbn. now rewrite E.
    + cbn. rewrite E. now apply IH.
Qed.

(* ================================================================= *)
(** ** Likes and invalidation *)

Lemma invalidate_entry_key k e : entry_key (invalidate_entry k e) = entry_key e.
Proof. unfold invalidate_entry. now destruct (partialMatchKey _ _). Qed.

Lemma invalidate_entry_keeps k e :
  entry_invalidated e = true -> entry_invalidated (invalidate_entry k e) = true.
Proof. unfold invalidate_entry. now destruct (partialMatchKey _ _). Qed.

Lemma invalidate_entry_matched k e :
  partialMatchKey (entry_key e) k = true ->
  entry_invalidated (invalidate_entry k e) = true.
Proof. unfold invalidate_entry. now intros ->. Qed.

Lemma KeyPart_eqb_refl k : KeyPart_eqb k k = true.
Proof. destruct k as [[] | s |]; cbn; auto using String.eqb_refl. Qed.

Lemma partialMatchKey_refl k : partialMatchKey k k = true.
Proof.
  induction k as [| x r IH]; [reflexivity |]. cbn.
  now rewrite KeyPart_eqb_refl, IH.
Qed.

Lemma invalidate_three (k1 k2 k3 : QueryKey) (e0 : CacheEntry) :
  let e := invalidate_entry k3 (invalidate_entry k2 (invalidate_entry k1 e0)) in
  entry_key e = k1 \/ entry_key e = k2 \/ entry_key e = k3 ->
  entry_invalidated e = true.
Proof.
  intros e Hk. subst e. rewrite !invalidate_entry_key in Hk.
  destruct Hk as [Hk | [Hk | Hk]].
  - apply invalidate_entry_keeps, invalidate_entry_keeps,
      invalidate_entry_matched.
    rewrite Hk. apply partialMatchKey_refl.
  - apply invalidate_entry_keeps, invalidate_entry_matched.
    rewrite invalidate_entry_key, Hk. apply partialMatchKey_refl.
  - apply invalidate_entry_matched.
    rewrite !invalidate_entry_key, Hk. apply partialMatchKey_refl.
Qed.

(** C5.  Whenever the like mutation resolves to an updated post, that post
    is the stored document of the given id and its likes are exactly the
    array that was passed; every stored post of that id has these likes.
    [onSuccess] then invalidates, in this order, the post-by-id key of that
    post's id, the home-feed key and the current-user key, and every cached
    query under one of these keys is marked invalidated. *)
Theorem likePost_stores_likes_and_invalidates :
  forall (postId : string) (likesArray : list string) (w : World) (p : PostDoc),
    fst (mutate useLikePost (postId, likesArray) w) = Returned (Some p) ->
    let w' := snd (mutate useLikePost (postId, likesArray) w) in
    post_likes p = likesArray
    /\ post_id p = postId
    /\ find_post (backend w') postId = Some p
    /\ (forall q, In q (posts (backend w')) -> post_id q = postId ->
                  post_likes q = likesArray)
    /\ invalidations w'
       = (invalidations w
          ++ [[KOp GET_POST_BY_ID; KString postId];
              [KOp GET_HOME_FEED_POSTS];
              [KOp GET_CURRENT_USER]])%list
    /\ (forall e, In e (cache w') ->
                  entry_key e = [KOp GET_POST_BY_ID; KString postId]
                  \/ entry_key e = [KOp GET_HOME_FEED_POSTS]
                  \/ entry_key e = [KOp GET_CURRENT_USER] ->
                  entry_invalidated e = true).
Proof.
  intros postId likesArray [b fs n con tr ca inv] p. 
  unfold mutate, useLikePost, likePost, databases_updateDocument_posts, sdk,
    invalidateQueries.
  cbn [mutationFn onSuccess fst snd]. js. cbn.
  destruct fs as [| [| | code] fs]; cbn; try discriminate.
  all: destruct (find_post b postId) as [p0 |] eqn:Hp0; cbn; try discriminate.
  all: intros [= <-]; cbn.
  all: pose proof (find_post_id _ _ _ Hp0) as Hid.
  all: (split; [reflexivity |]); (split; [assumption |]).
  all: (split; [unfold find_post in *; cbn;
                erewrite find_post_updated;
                [reflexivity | assumption | eassumption] |]).
  all: split; [intros q Hq Hqid; apply in_map_iff in Hq as (x & Hx & _);
               destruct (post_id x =? postId)%string eqn:E;
               [now subst q |
                subst q; apply String.eqb_neq in E; congruence] |].
  all: rewrite Hid; (split; [rewrite <- !app_assoc; reflexivity |]).
  all: intros e He Hk; rewrite !map_map in He;
       apply in_map_iff in He as (e0 & <- & _); now apply invalidate_three.
Qed.

Lemma likePost_stores_likes_and_invalidates_witness :
  option_map post_likes (find_post sample_backend "p1") = Some ["u1"]
  /\ option_map post_likes
       (find_post
          (backend (snd (mutate useLikePost ("p1", ["u1"; "u2"])
                           (sample_world []))))
          "p1")
     = Some ["u1"; "u2"]
  /\ Forall (fun e => entry_invalidated e = true)
       (firstn 3 (cache (snd (mutate useLikePost ("p1", ["u1"; "u2"])
                                (sample_world []))))).
Proof.
  destruct (likePost_stores_likes_and_invalidates "p1" ["u1"; "u2"]
              (sample_world [])
              (stamp 100 (set_likes ["u1"; "u2"] (sample_post "p1" 10 "u1")))
              eq_refl) as (_ & _ & H & _).
  split; [reflexivity |]. split; [rewrite H; reflexivity |].
  repeat constructor.
Defined.

(** The like mutation does resolve to the updated post when the post
    exists and the call resolves. *)
Lemma likePost_succeeds (postId : string) (likesArray : list string)
    (w : World) (p0 : PostDoc) :
  hd Resolves (faults w) = Resolves ->
  find_post (backend w) postId = Some p0 ->
  fst (mutate useLikePost (postId, likesArray) w)
  = Returned (Some (stamp (now (backend w)) (set_likes likesArray p0))).
Proof.
  destruct w as [b fs n con tr ca inv]. cbn. intros Hf Hp.
  unfold mutate, useLikePost, likePost, databases_updateDocument_posts, sdk,
    invalidateQueries.
  cbn [mutationFn onSuccess fst snd]. js. cbn. now rewrite Hf, Hp.
Qed.

(** ** Guards on empty identifiers *)

(** C6, amended.  While the identifier is empty or [undefined], the
    queries bound to it ([useGetPostById], [useGetUserPosts],
    [useGetUserById], [useSearchPosts]) are disabled: observing them runs
    nothing, raises nothing and leaves the world as it is.  Of the API
    functions, [getUserById] and [getUserPosts] return [undefined] at once
    without a remote call; [getPostById] issues no remote call either but
    throws [Error] to its caller; [searchPosts] has no guard of its own and
    issues its list query. *)
Theorem empty_identifier_guards :
  forall (id : option string) (w : World),
    truthy_opt id = false ->
    observe (useGetPostById id) w = (Returned None, w)
    /\ observe (useGetUserPosts id) w = (Returned None, w)
    /\ observe (useGetUserById "") w = (Returned None, w)
    /\ observe (useSearchPosts "") w = (Returned None, w)
    /\ getUserById id w = (Returned None, w)
    /\ getUserPosts id w = (Returned None, w)
    /\ getPostById id w = (Thrown ErrorCtor, w)
    /\ map call (trace (snd (searchPosts "" w)))
       = (map call (trace w)
          ++ [ListDocuments postsC [Query_search "caption" ""]])%list.
Proof.
  intros id w Hid.
  unfold observe, useGetPostById, useGetUserPosts, getUserById, getUserPosts,
    getPostById.
  cbn [enabled]. rewrite Hid. cbn.
  repeat split.
  destruct w as [b fs n con tr ca inv].
  unfold searchPosts, databases_listDocuments_posts, sdk. js. cbn.
  destruct fs as [| [| | code] fs]; cbn; now rewrite map_app.
Qed.

Lemma empty_identifier_guards_witness :
  observe (useGetPostById None) (sample_world [])
  = (Returned None, sample_world [])
  /\ getUserById None (sample_world []) = (Returned None, sample_world []).
Proof.
  destruct (empty_identifier_guards None (sample_world []) eq_refl)
    as (H1 & _ & _ & _ & H5 & _).
  split; [exact H1 | exact H5].
Defined.

(** C6, as stated, fails: [getPostById(undefined)] raises an error to its
    caller, and [searchPosts("")] issues a remote call. *)
Lemma getPostById_undefined_throws :
  getPostById None (sample_world []) = (Thrown ErrorCtor, sample_world [])
  /\ map call (trace (snd (searchPosts "" (sample_world []))))
     = [ListDocuments postsC [Query_search "caption" ""]].
Proof. split; reflexivity. Qed.

(* ================================================================= *)
(** ** Tags *)

(** What [createPost] and [updatePost] store as tags. *)
Lemma createPost_stores_tags (post : INewPost) (w : World) (p : PostDoc) :
  fst (createPost post w) = Returned (Some p) ->
  post_tags p = tags_of (np_tags post)
  /\ In p (posts (backend (snd (createPost post w)))).
Proof.
  destruct w as [b fs n con tr ca inv].
  unfold createPost. autounfold with api. js. cbn. settle;
    try discriminate.
  all: intros [= <-]; split; [reflexivity | apply in_or_app; right; now left].
Qed.

Lemma updatePost_stores_tags (post : IUpdatePost) (w : World) (p : PostDoc) :
  fst (updatePost post w) = Returned (Some p) ->
  post_tags p = tags_of (up_tags post)
  /\ find_post (backend (snd (updatePost post w))) (up_postId post) = Some p.
Proof.
  destruct w as [b fs n con tr ca inv].
  unfold updatePost. autounfold with api. js. cbn. settle;
    try discriminate.
  all: intros [= <-]; split; [reflexivity |].
  all: unfold find_post in *; cbn;
       erewrite find_post_updated; [reflexivity | cbn | eassumption];
       now apply (find_post_id b).
Qed.

(** C8.  Whenever [createPost] or [updatePost] resolves to a post for an
    input whose tags string is ["nature, travel"], that post is stored and
    its tags are the array [["nature"; "travel"]]; for an input without a
    tags string the tags are the empty array.  In general the tags are the
    string with its space characters removed, split on commas. *)
Theorem tags_string_is_split_into_array :
  forall (post : INewPost) (update : IUpdatePost) (w : World) (p : PostDoc),
    (np_tags post = Some "nature, travel" ->
     fst (createPost post w) = Returned (Some p) ->
     post_tags p = ["nature"; "travel"]
     /\ In p (posts (backend (snd (createPost post w)))))
    /\ (up_tags update = Some "nature, travel" ->
        fst (updatePost update w) = Returned (Some p) ->
        post_tags p = ["nature"; "travel"]
        /\ find_post (backend (snd (updatePost update w))) (up_postId update)
           = Some p)
    /\ (np_tags post = None ->
        fst (createPost post w) = Returned (Some p) -> post_tags p = [])
    /\ (up_tags update = None ->
        fst (updatePost update w) = Returned (Some p) -> post_tags p = [])
    /\ (forall s, tags_of (Some s) = split ","%char (replace_spaces s)).
Proof.
  intros post update w p.
  refine (conj _ (conj _ (conj _ (conj _ _)))).
  - intros Ht Hr. apply createPost_stores_tags in Hr as [-> Hin].
    rewrite Ht. now split.
  - intros Ht Hr. apply updatePost_stores_tags in Hr as [-> Hin].
    rewrite Ht. now split.
  - intros Ht Hr. apply createPost_stores_tags in Hr as [-> _].
    now rewrite Ht.
  - intros Ht Hr. apply updatePost_stores_tags in Hr as [-> _].
    now rewrite Ht.
  - reflexivity.
Qed.

Lemma tags_string_is_split_into_array_witness :
  post_tags (returned_post (fst (createPost sample_new_post (sample_world []))))
  = ["nature"; "travel"]
  /\ post_tags
       (returned_post (fst (updatePost sample_update_post (sample_world []))))
     = ["nature"; "travel"].
Proof.
  split.
  - exact (proj1 (proj1 (tags_string_is_split_into_array sample_new_post
                           sample_update_post (sample_world [])
                           (returned_post
                              (fst (createPost sample_new_post
                                      (sample_world [])))))
                    eq_refl eq_refl)).
  - exact (proj1 (proj1 (proj2 (tags_string_is_split_into_array sample_new_post
                           sample_update_post (sample_world [])
                           (returned_post
                              (fst (updatePost sample_update_post
                                      (sample_world []))))))
                    eq_refl eq_refl)).
Defined.

(** ** Deleting a post *)

(** C9.  [deletePost] with a non-empty post id and a non-empty image id
    issues one call, the deletion of the post document, and no request to
    delete a file: storage is left as it was, the image file included, and
    so are the other collections.  The posts collection loses the documents
    of that id when the call is fulfilled, and is unchanged otherwise. *)
Theorem deletePost_leaves_image_file :
  forall (postId imageId : string) (w : World),
    truthy postId = true ->
    truthy imageId = true ->
    let w' := snd (deletePost postId imageId w) in
    files (backend w') = files (backend w)
    /\ users (backend w') = users (backend w)
    /\ saves (backend w') = saves (backend w)
    /\ follows (backend w') = follows (backend w)
    /\ (exists s,
          trace w'
          = (trace w
             ++ [{| call := DeleteDocument postsC postId; settled := s |}])%list
          /\ posts (backend w')
             = match s with
               | Fulfilled =>
                   filter (fun x => negb (post_id x =? postId)%string)
                     (posts (backend w))
               | _ => posts (backend w)
               end)
    /\ (forall fileId,
          deletions_of fileId (trace w') = deletions_of fileId (trace w)).
Proof.
  intros postId imageId [b fs n con tr ca inv] Hp Hi w'. subst w'.
  unfold deletePost. rewrite Hp, Hi. autounfold with api. js. cbn.
  settle.
  all: repeat split; try (eexists; split; reflexivity).
  all: intros fileId; unfold deletions_of; rewrite filter_app; cbn;
       now rewrite app_nil_r.
Qed.

(** The image id is a precondition all the same: without it [deletePost]
    throws before any call. *)
Lemma deletePost_requires_image_id (postId : string) (w : World) :
  deletePost postId "" w = (Thrown ErrorCtor, w).
Proof.
  unfold deletePost. cbn. now rewrite orb_true_r.
Qed.

Lemma deletePost_leaves_image_file_witness :
  file_exists sample_backend "img-p1" = true
  /\ find_post
       (backend (snd (deletePost "p1" "img-p1" (sample_world [])))) "p1"
     = None
  /\ file_exists
       (backend (snd (deletePost "p1" "img-p1" (sample_world [])))) "img-p1"
     = true.
Proof.
  destruct (deletePost_leaves_image_file "p1" "img-p1" (sample_world [])
              eq_refl eq_refl) as (H & _).
  split; [reflexivity |]. split; [reflexivity |].
  unfold file_exists. rewrite H. reflexivity.
Defined.

(** ** [updateUser] *)

Lemma updateUser_frame (user : IUpdateUser) (w : World) :
  fst (updateUser user w) = Returned None
  /\ cache (snd (updateUser user w)) = cache w
  /\ invalidations (snd (updateUser user w)) = invalidations w.
Proof.
  destruct w as [b fs n con tr ca inv].
  unfold updateUser. autounfold with api. js. cbn. settle.
  all: repeat split.
Qed.

(** C10.  [updateUser] resolves to [undefined] in every world, so the
    update-user mutation resolves to [undefined] and always succeeds;
    its [onSuccess] invalidates the current-user key and the user-by-id key
    built from [undefined], and a cached user-by-id query under a user id
    (that of the updated user included) is left as it was. *)
Theorem updateUser_always_resolves_undefined :
  forall (user : IUpdateUser) (w : World),
    let w' := snd (mutate useUpdateUser user w) in
    fst (updateUser user w) = Returned None
    /\ fst (mutate useUpdateUser user w) = Returned None
    /\ invalidations w'
       = (invalidations w
          ++ [[KOp GET_CURRENT_USER]; [KOp GET_USER_BY_ID; KUndefined]])%list
    /\ (forall e userId,
          In e (cache w) ->
          entry_key e = [KOp GET_USER_BY_ID; KString userId] ->
          In e (cache w')).
Proof.
  intros user w w'. subst w'.
  destruct (updateUser_frame user w) as (Hr & Hc & Hi).
  split; [assumption |].
  unfold mutate, useUpdateUser. cbn [mutationFn onSuccess]. js.
  destruct (updateUser user w) as [[r | e] w1]; cbn in *; [| discriminate].
  injection Hr as ->. cbn. rewrite Hc, Hi.
  split; [reflexivity |]. split; [rewrite <- !app_assoc; reflexivity |].
  intros e userId He Hk. rewrite map_map. apply in_map_iff. exists e.
  split; [| assumption].
  unfold invalidate_entry. rewrite Hk. cbn. rewrite Hk. reflexivity.
Qed.

Lemma updateUser_always_resolves_undefined_witness :
  fst (updateUser sample_update_user (sample_world [])) = Returned None
  /\ In {| entry_key := [KOp GET_USER_BY_ID; KString "u1"];
           entry_invalidated := false |}
       (cache (snd (mutate useUpdateUser sample_update_user
                      (sample_world [])))).
Proof.
  destruct (updateUser_always_resolves_undefined sample_update_user
              (sample_world [])) as (H1 & _ & _ & H4).
  split; [exact H1 |].
  apply (H4 _ "u1"); [| reflexivity].
  cbn. tauto.
Defined.

(* ================================================================= *)
(** * Further properties *)

(** ** Tags *)

Lemma split_nonempty (sep : ascii) (s : string) : split sep s <> [].
Proof.
  destruct s as [| c r]; cbn; [discriminate |].
  destruct (Ascii.eqb c sep); [discriminate |].
  destruct (split sep r); discriminate.
Qed.

Lemma split_concat (sep : ascii) (s : string) :
  String.concat (String sep EmptyString) (split sep s) = s.
Proof.
  induction s as [| c r IH]; [reflexivity |].
  cbn [split]. destruct (Ascii.eqb_spec c sep) as [-> | Hne].
  - pose proof (split_nonempty sep r) as Hn.
    destruct (split sep r) as [| h t]; [contradiction |].
    cbn in *. now rewrite IH.
  - pose proof (split_nonempty sep r) as Hn.
    destruct (split sep r) as [| h t]; [contradiction |].
    destruct t as [| h' t']; cbn in *; now rewrite <- IH.
Qed.

Lemma split_no_sep (sep : ascii) (s : string) :
  Forall (fun t => has_char sep t = false) (split sep s).
Proof.
  induction s as [| c r IH]; [repeat constructor |].
  cbn [split]. destruct (Ascii.eqb c sep) eqn:E.
  - constructor; [reflexivity | assumption].
  - destruct (split sep r) as [| h t];
      [repeat constructor; cbn; now rewrite E |].
    inversion IH; subst. constructor; [cbn; now rewrite E | assumption].
Qed.

Lemma replace_spaces_no_space (s : string) :
  has_char " " (replace_spaces s) = false.
Proof.
  induction s as [| c r IH]; [reflexivity |]. cbn.
  destruct (Ascii.eqb c " ") eqn:E; [assumption |]. cbn. now rewrite E.
Qed.

Lemma has_char_concat (c sep : ascii) (l : list string) :
  has_char c (String.concat (String sep EmptyString) l) = false ->
  Forall (fun t => has_char c t = false) l.
Proof.
  assert (Happ : forall a b,
             has_char c (a ++ b) = has_char c a || has_char c b).
  { induction a as [| x a IH]; intros b; [reflexivity |]. cbn.
    now rewrite IH, orb_assoc. }
  induction l as [| h t IH]; [constructor |].
  destruct t as [| h' t'].
  - cbn. intros H. now repeat constructor.
  - cbn [String.concat]. rewrite Happ. intros H.
    apply orb_false_iff in H as [Hh Ht]. constructor; [assumption |].
    apply IH. rewrite Happ in Ht. cbn in Ht.
    apply orb_false_iff in Ht as [_ Ht]. exact Ht.
Qed.

(** X1.  For a tags string that is present, the stored tags are never the
    empty array: joining them with commas gives back the string without
    its space characters, and no tag holds a comma or a space.  The empty
    string gives one empty tag. *)
Theorem tags_round_trip :
  forall s : string,
    tags_of (Some s) <> []
    /\ String.concat "," (tags_of (Some s)) = replace_spaces s
    /\ Forall (fun t => has_char "," t = false /\ has_char " " t = false)
         (tags_of (Some s))
    /\ tags_of (Some "") = [""].
Proof.
  intros s. cbn [tags_of]. repeat split.
  - apply split_nonempty.
  - apply split_concat.
  - apply Forall_forall. intros t Ht. split.
    + pose proof (split_no_sep "," (replace_spaces s)) as H.
      rewrite Forall_forall in H. now apply H.
    + pose proof (has_char_concat " " "," (split "," (replace_spaces s))) as H.
      rewrite split_concat in H.
      specialize (H (replace_spaces_no_space s)).
      rewrite Forall_forall in H. now apply H.
Qed.

(** ** Page windows *)

Lemma firstn_add {A} (a b : nat) (l : list A) :
  firstn (a + b) l = (firstn a l ++ firstn b (skipn a l))%list.
Proof.
  revert l. induction a as [| a IH]; intros l; [reflexivity |].
  destruct l as [| x l]; cbn; [now rewrite firstn_nil |]. now rewrite IH.
Qed.

Lemma slice_page {A} (l : list A) (i pageSize : nat) :
  slice l ((Z.of_nat (S i) - 1) * Z.of_nat pageSize)
    ((Z.of_nat (S i) - 1) * Z.of_nat pageSize + Z.of_nat pageSize)
  = firstn pageSize (skipn (i * pageSize) l).
Proof.
  rewrite slice_window by nia. f_equal; [lia |]. f_equal. nia.
Qed.

Lemma concat_pages {A} (l : list A) (pageSize k : nat) :
  concat
    (map (fun page : nat =>
            slice l ((Z.of_nat page - 1) * Z.of_nat pageSize)
              ((Z.of_nat page - 1) * Z.of_nat pageSize + Z.of_nat pageSize))
       (seq 1 k))
  = firstn (k * pageSize) l.
Proof.
  induction k as [| k IH]; [reflexivity |].
  rewrite seq_S, map_app, concat_app, IH. cbn [map concat Nat.add].
  rewrite app_nil_r, slice_page.
  replace (S k * pageSize)%nat with (k * pageSize + pageSize)%nat by lia.
  now rewrite firstn_add.
Qed.

(** X2.  The windows of pages 1 to [k], one after the other, are the
    first [k * pageSize] elements of the list: consecutive pages neither
    overlap nor skip an element, and no page is longer than the page
    size. *)
Theorem pages_cover_a_prefix :
  forall (A : Type) (l : list A) (pageSize k : nat),
    concat
      (map (fun page : nat =>
              slice l ((Z.of_nat page - 1) * Z.of_nat pageSize)
                ((Z.of_nat page - 1) * Z.of_nat pageSize + Z.of_nat pageSize))
         (seq 1 k))
    = firstn (k * pageSize) l
    /\ Forall (fun page => (length page <= pageSize)%nat)
         (map (fun page : nat =>
                 slice l ((Z.of_nat page - 1) * Z.of_nat pageSize)
                   ((Z.of_nat page - 1) * Z.of_nat pageSize
                    + Z.of_nat pageSize))
            (seq 1 k)).
Proof.
  intros A l pageSize k. split; [apply concat_pages |].
  apply Forall_forall. intros p Hp. apply in_map_iff in Hp as (i & <- & Hi).
  apply in_seq in Hi. destruct i as [| i]; [lia |].
  rewrite slice_page, length_firstn. lia.
Qed.

(** X3.  A page window is a contiguous piece of the list.  From page 1
    on it holds at most [pageSize] elements, exactly [pageSize] while the
    list reaches that far, and none once the list is exhausted; page 0 is
    empty. *)
Theorem page_window_bounds :
  forall (A : Type) (l : list A) (page pageSize : Z),
    0 <= pageSize ->
    let window := slice l ((page - 1) * pageSize)
                    ((page - 1) * pageSize + pageSize) in
    (exists before after, l = (before ++ window ++ after)%list)
    /\ (1 <= page -> (length window <= Z.to_nat pageSize)%nat)
    /\ (1 <= page -> Z.of_nat (length l) <= (page - 1) * pageSize ->
        window = [])
    /\ (1 <= page -> page * pageSize <= Z.of_nat (length l) ->
        length window = Z.to_nat pageSize)
    /\ (page = 0 -> window = []).
Proof.
  intros A l page pageSize Hs window. repeat split.
  - subst window. unfold slice.
    match goal with
    | |- context [firstn ?n (skipn ?k l)] =>
        exists (firstn k l), (skipn n (skipn k l));
        now rewrite (firstn_skipn n), (firstn_skipn k)
    end.
  - intros Hp. subst window. rewrite slice_window by nia.
    rewrite length_firstn. lia.
  - intros Hp Hlen. subst window. rewrite slice_window by nia.
    assert (0 <= (page - 1) * pageSize) by nia.
    rewrite skipn_all2 by lia. apply firstn_nil.
  - intros Hp Hlen. subst window. rewrite slice_window by nia.
    rewrite length_firstn, length_skipn.
    assert (0 <= (page - 1) * pageSize) by nia.
    assert ((page - 1) * pageSize + pageSize <= Z.of_nat (length l))
      by (replace ((page - 1) * pageSize + pageSize) with (page * pageSize)
            by ring; exact Hlen).
    lia.
  - intros ->. subst window. unfold slice.
    replace ((0 - 1) * pageSize + pageSize) with 0 by lia.
    set (len := Z.of_nat (length l)).
    assert (H : Z.max (slice_index len 0
                       - slice_index len ((0 - 1) * pageSize)) 0 = 0).
    { unfold slice_index.
      destruct (Z.ltb_spec 0 0), (Z.ltb_spec ((0 - 1) * pageSize) 0); lia. }
    now rewrite H.
Qed.

Lemma page_window_bounds_witness :
  length (slice [1; 2; 3; 4; 5] ((2 - 1) * 3) ((2 - 1) * 3 + 3)) = 2%nat
  /\ slice [1; 2; 3; 4; 5] ((3 - 1) * 3) ((3 - 1) * 3 + 3) = [].
Proof.
  destruct (page_window_bounds Z [1; 2; 3; 4; 5] 3 3 ltac:(lia))
    as (_ & _ & H & _).
  split; [reflexivity |]. apply H; cbn; lia.
Defined.

(** ** Scrolling through a feed *)

Lemma getAllPosts_fulfilled (w : World) :
  faults w = [] ->
  getAllPosts w
  = (Returned (Some (sort by_updatedAt_desc (posts (backend w)))),
     read_calls [ListDocuments postsC [Query_orderDesc "$updatedAt"]] w).
Proof.
  intros Hf. unfold getAllPosts, databases_listDocuments_posts. js.
  erewrite sdk_fulfilled; [reflexivity | assumption | reflexivity].
Qed.

Lemma getUserPosts_fulfilled (userId : string) (w : World) :
  faults w = [] -> truthy userId = true ->
  getUserPosts (Some userId) w
  = (Returned (Some (sort by_createdAt_desc (posts_of (backend w) userId))),
     read_calls [ListDocuments postsC [Query_equal "creator" userId;
                                       Query_orderDesc "$createdAt"]] w).
Proof.
  intros Hf Ht. unfold getUserPosts, databases_listDocuments_posts.
  cbn [truthy_opt the]. rewrite Ht. cbn [negb]. js.
  erewrite sdk_fulfilled; [reflexivity | assumption | reflexivity].
Qed.

Lemma fetch_pages_fulfilled {A} (q : InfiniteQueryOptions (option (list A)))
    (all : list A) (size : nat) (b : Backend) :
  initialPageParam q = 1 ->
  (forall pages, getNextPageParam q pages = next_page pages) ->
  (forall page w, faults w = [] -> backend w = b ->
     exists w', pageFn q page w
                = (Returned (page_window (Some all) page (Z.of_nat size)), w')
                /\ faults w' = [] /\ backend w' = b) ->
  forall n w, faults w = [] -> backend w = b ->
    exists w',
      fetch_pages q n w
      = (Returned
           (map (fun page : nat =>
                   Some (slice all ((Z.of_nat page - 1) * Z.of_nat size)
                           ((Z.of_nat page - 1) * Z.of_nat size
                            + Z.of_nat size)))
              (seq 1 n)), w')
      /\ faults w' = [] /\ backend w' = b.
Proof.
  intros Hinit Hnext Hpage. induction n as [| n IH]; intros w Hf Hb.
  - exists w. now repeat split.
  - destruct (IH w Hf Hb) as (w1 & Hrun & Hf1 & Hb1).
    cbn [fetch_pages]. unfold bind at 1. rewrite Hrun.
    unfold fetchNextPage.
    set (pages := map _ (seq 1 n)).
    assert (Hparam : match pages with
                     | [] => initialPageParam q
                     | _ :: _ => getNextPageParam q pages
                     end = Z.of_nat (S n)).
    { destruct pages as [| p ps] eqn:E.
      - subst pages. apply map_eq_nil in E.
        destruct n; [now rewrite Hinit | discriminate].
      - rewrite Hnext. unfold next_page. rewrite <- E. subst pages.
        rewrite length_map, length_seq. lia. }
    rewrite Hparam.
    destruct (Hpage (Z.of_nat (S n)) w1 Hf1 Hb1) as (w2 & Hp & Hf2 & Hb2).
    js. rewrite Hp. unfold cache_settled. cbn [fst snd].
    eexists. split; [rewrite seq_S, map_app; reflexivity |].
    split; [exact Hf2 | exact Hb2].
Qed.

(** X4.  Fetching the next page [n] times, when every call is fulfilled,
    shows the first [9 n] posts of the explore feed (all posts, latest
    update first), the first [6 n] posts of a profile (the user's posts,
    latest first) and the first [3 n] posts of the merged home feed: the
    page asked for after [k] pages is page [k + 1]. *)
Theorem infinite_scroll_covers_a_prefix :
  forall (w : World) (n : nat),
    faults w = [] ->
    let b := backend w in
    (exists pages,
        fst (fetch_pages useGetExplorePosts n w) = Returned (map Some pages)
        /\ length pages = n
        /\ concat pages
           = firstn (n * 9) (sort by_updatedAt_desc (posts b)))
    /\ (forall userId, truthy userId = true ->
        exists pages,
          fst (fetch_pages (useGetUserProfilePosts userId) n w)
          = Returned (map Some pages)
          /\ length pages = n
          /\ concat pages
             = firstn (n * 6) (sort by_createdAt_desc (posts_of b userId)))
    /\ (forall a u,
          current_account b = Some a ->
          hd_error (filter (fun r => row_accountId r =? account_id a)%string
                      (users b)) = Some u ->
          exists pages,
            fst (fetch_pages useGetHomeFeedPosts n w)
            = Returned (map Some pages)
            /\ length pages = n
            /\ concat pages
               = firstn (n * 3)
                   (sort by_createdAt_desc
                      (flat_map (posts_of b)
                         (userIds_of (expand_user b u))))).
Proof.
  intros w n Hf b.
  assert (Hcover : forall A (q : InfiniteQueryOptions (option (list A)))
                          (all : list A) (size : nat),
             (exists w',
                 fetch_pages q n w
                 = (Returned
                      (map (fun page : nat =>
                              Some (slice all
                                      ((Z.of_nat page - 1) * Z.of_nat size)
                                      ((Z.of_nat page - 1) * Z.of_nat size
                                       + Z.of_nat size)))
                         (seq 1 n)), w')
                 /\ faults w' = [] /\ backend w' = b) ->
             exists pages,
               fst (fetch_pages q n w) = Returned (map Some pages)
               /\ length pages = n
               /\ concat pages = firstn (n * size) all).
  { intros A q all size (w' & Hrun & _).
    exists (map (fun page : nat =>
                   slice all ((Z.of_nat page - 1) * Z.of_nat size)
                     ((Z.of_nat page - 1) * Z.of_nat size + Z.of_nat size))
              (seq 1 n)).
    rewrite Hrun, map_map, length_map, length_seq, concat_pages.
    now repeat split. }
  refine (conj _ (conj _ _)).
  - apply Hcover.
    apply (fetch_pages_fulfilled useGetExplorePosts _ 9 b); auto.
    intros page w0 Hf0 Hb0. cbn [pageFn useGetExplorePosts].
    unfold getExplorePosts. js. rewrite (getAllPosts_fulfilled w0 Hf0).
    eexists. split; [rewrite Hb0; reflexivity |].
    split; [now apply read_calls_faults | now rewrite read_calls_backend].
  - intros userId Ht. apply Hcover.
    apply (fetch_pages_fulfilled (useGetUserProfilePosts userId) _ 6 b); auto.
    intros page w0 Hf0 Hb0. cbn [pageFn useGetUserProfilePosts].
    unfold getUserProfilePosts. js.
    rewrite (getUserPosts_fulfilled userId w0 Hf0 Ht).
    eexists. split; [rewrite Hb0; reflexivity |].
    split; [now apply read_calls_faults | now rewrite read_calls_backend].
  - intros a u Ha Hu. apply Hcover.
    apply (fetch_pages_fulfilled useGetHomeFeedPosts _ 3 b); auto.
    intros page w0 Hf0 Hb0. cbn [pageFn useGetHomeFeedPosts].
    unfold getHomeFeedPosts. js. subst b. rewrite <- Hb0 in Ha, Hu.
    rewrite (getFollowingPosts_fulfilled w0 a u Hf0 Ha Hu).
    eexists. split; [rewrite Hb0; reflexivity |].
    split; [now apply read_calls_faults | now rewrite read_calls_backend].
Qed.

Lemma infinite_scroll_covers_a_prefix_witness :
  exists pages,
    fst (fetch_pages useGetHomeFeedPosts 2 (sample_world []))
    = Returned (map Some pages)
    /\ concat pages
       = [sample_post "p4" 40 "u2"; sample_post "p2" 20 "u2";
          sample_post "p5" 20 "u1"; sample_post "p1" 10 "u1"].
Proof.
  destruct (infinite_scroll_covers_a_prefix (sample_world []) 2 eq_refl)
    as (_ & _ & H).
  destruct (H {| account_id := "a1"; account_email := "u1@example.org";
                 account_password := "secret"; account_name := "u1" |}
              (sample_user "u1" "a1") eq_refl eq_refl)
    as (pages & Hr & _ & Hc).
  exists pages. split; [exact Hr |]. rewrite Hc. reflexivity.
Defined.

(** ** Users *)

(** X5.  When the call is fulfilled, [getUsers] lists the users -- the
    first [limit] of the collection when a limit other than 0 is given,
    all of them for [undefined] or 0 -- and returns that listing sorted by
    number of followers, largest first: the limit cuts before the sort. *)
Theorem getUsers_sorts_after_the_limit :
  forall (limit : option Z) (w : World),
    faults w = [] ->
    (forall n, limit = Some n -> 0 <= n) ->
    let b := backend w in
    let listed :=
      match limit with
      | Some n => if n =? 0 then users b else firstn (Z.to_nat n) (users b)
      | None => users b
      end in
    exists sorted,
      fst (getUsers limit w) = Returned (Some sorted)
      /\ Permutation sorted (map (expand_user b) listed)
      /\ descending (fun u => Z.of_nat (length (followers u))) sorted
      /\ backend (snd (getUsers limit w)) = b.
Proof.
  intros limit w Hf _ b listed.
  exists (sort by_followers_desc (map (expand_user b) listed)).
  assert (Hrun : fst (getUsers limit w)
                 = Returned (Some (sort by_followers_desc
                                     (map (expand_user b) listed)))
                 /\ backend (snd (getUsers limit w)) = b).
  { unfold getUsers, databases_listDocuments_users. js.
    subst listed. destruct limit as [n |]; [destruct (n =? 0) |];
      (erewrite sdk_fulfilled; [now split | assumption | reflexivity]). }
  destruct Hrun as [Hr Hb]. repeat split; try assumption.
  - apply (sort_perm (fun u => Z.of_nat (length (followers u)))).
  - apply (sort_descending (fun u => Z.of_nat (length (followers u)))).
Qed.

Lemma getUsers_sorts_after_the_limit_witness :
  option_map (map user_id)
    (match fst (getUsers (Some 2) (sample_world [])) with
     | Returned r => r
     | Thrown _ => None
     end)
  = Some ["u2"; "u1"].
Proof.
  destruct (getUsers_sorts_after_the_limit (Some 2) (sample_world []) eq_refl)
    as (sorted & Hr & _).
  - intros n [= <-]. lia.
  - reflexivity.
Defined.

Lemma Read_getUsers limit : Read (getUsers limit).
Proof.
  unfold getUsers, databases_listDocuments_users. repeat read_step.
Qed.

(** X6.  [getAllUsers] is an idempotent page of what [getUsers()]
    returned, and writes nothing; [getUsers()] is asked without a limit,
    so the candidates are all users, most followed first. *)
Theorem getAllUsers_pages_the_whole_list :
  forall (page pageSize : Z) (w1 w2 : World),
    backend w1 = backend w2 ->
    faults w1 = faults w2 ->
    idempotent_page (getAllUsers page pageSize) (getUsers None)
      page pageSize w1 w2
    /\ (faults w1 = [] ->
        fst (getUsers None w1)
        = Returned (Some (sort by_followers_desc
                            (map (expand_user (backend w1))
                               (users (backend w1)))))).
Proof.
  intros page pageSize w1 w2 Hb Hf. split.
  - apply (paginated_read (getUsers None)); auto using Read_getUsers.
    intros w. apply try_catch_returns.
  - intros Hf1. unfold getUsers, databases_listDocuments_users. js.
    erewrite sdk_fulfilled; [reflexivity | assumption | reflexivity].
Qed.

Lemma getAllUsers_pages_the_whole_list_witness :
  fst (getAllUsers 1 2 (snd (getAllUsers 1 2 (sample_world []))))
  = fst (getAllUsers 1 2 (sample_world [])).
Proof.
  symmetry.
  exact (proj1 (proj1 (getAllUsers_pages_the_whole_list 1 2 (sample_world [])
                         (snd (getAllUsers 1 2 (sample_world [])))
                         eq_refl eq_refl))).
Defined.

(** ** Reads *)

(** X20.  The read functions leave the backend as it was, however their
    calls settle. *)
Theorem reads_never_write :
  forall (w : World) (id : option string) (term fileId : string)
         (limit : option Z) (page pageSize : Z),
    backend (snd (getCurrentUser w)) = backend w
    /\ backend (snd (getUserById id w)) = backend w
    /\ backend (snd (getPostById id w)) = backend w
    /\ backend (snd (getUserPosts id w)) = backend w
    /\ backend (snd (searchPosts term w)) = backend w
    /\ backend (snd (getAllPosts w)) = backend w
    /\ backend (snd (getFollowingPosts w)) = backend w
    /\ backend (snd (getUsers limit w)) = backend w
    /\ backend (snd (getAllUsers page pageSize w)) = backend w
    /\ backend (snd (getFilePreview fileId w)) = backend w.
Proof.
  intros w id term fileId limit page pageSize.
  assert (R1 : Read (getUserById id))
    by (unfold getUserById, databases_getDocument_users; repeat read_step).
  assert (R2 : Read (getPostById id))
    by (unfold getPostById, databases_getDocument_posts; repeat read_step).
  assert (R3 : Read (searchPosts term))
    by (unfold searchPosts, databases_listDocuments_posts; repeat read_step).
  assert (R4 : Read (getFilePreview fileId))
    by (unfold getFilePreview, storage_getFilePreview; repeat read_step).
  pose proof (Read_page (getUsers None) page pageSize (Read_getUsers None))
    as R5.
  repeat split;
    first [ apply Read_getCurrentUser | apply R1 | apply R2
          | apply Read_getUserPosts | apply R3 | apply Read_getAllPosts
          | apply Read_getFollowingPosts | apply Read_getUsers
          | apply R5 | apply R4 ].
Qed.

(* ================================================================= *)
(** ** Creating and updating posts and users *)

(** X7.  [createPost] never throws.  When it resolves to a post, that
    post is the one document added to the collection: it has the given
    creator, caption, location and tags, no likes, the preview URL of its
    image file, and that file is stored.  When it resolves to [undefined],
    the posts collection is as it was. *)
Theorem createPost_stores_all_or_nothing :
  forall (post : INewPost) (w : World),
    let b := backend w in
    let b' := backend (snd (createPost post w)) in
    match fst (createPost post w) with
    | Returned (Some p) =>
        posts b' = (posts b ++ [p])%list
        /\ post_creator p = np_userId post
        /\ post_caption p = np_caption post
        /\ post_location p = np_location post
        /\ post_tags p = tags_of (np_tags post)
        /\ post_likes p = []
        /\ post_imageUrl p = preview_url (post_imageId p)
        /\ file_exists b' (post_imageId p) = true
    | Returned None => posts b' = posts b
    | Thrown _ => False
    end.
Proof.
  intros post [b fs n con tr ca inv].
  unfold createPost. autounfold with api. js. cbn. settle.
  all: cbn; try reflexivity.
  all: repeat split.
  all: unfold file_exists; cbn; rewrite existsb_app; cbn;
       rewrite String.eqb_refl; apply orb_true_r.
Qed.

(** X8.  [updatePost] without a new file issues no upload: the one call
    is the document update, and the updated post takes the image id and
    URL, caption, location and tags of the input and keeps its likes,
    creator and creation time.  Storage is untouched unless the update
    resolves with a falsy value, in which case the current image file is
    asked to be deleted. *)
Theorem updatePost_without_a_new_file :
  forall (post : IUpdatePost) (w : World),
    up_file post = [] ->
    let w' := snd (updatePost post w) in
    (forall p,
        fst (updatePost post w) = Returned (Some p) ->
        post_imageId p = up_imageId post
        /\ post_imageUrl p = up_imageUrl post
        /\ post_caption p = up_caption post
        /\ post_location p = up_location post
        /\ post_tags p = tags_of (up_tags post)
        /\ exists p0,
             find_post (backend w) (up_postId post) = Some p0
             /\ post_likes p = post_likes p0
             /\ post_creator p = post_creator p0
             /\ post_createdAt p = post_createdAt p0)
    /\ exists evs,
         trace w' = (trace w ++ evs)%list
         /\ map call evs
            = match nth_fault 0 w with
              | ResolvesFalsy =>
                  [UpdateDocument postsC (up_postId post);
                   StorageDeleteFile (up_imageId post)]
              | _ => [UpdateDocument postsC (up_postId post)]
              end
         /\ (nth_fault 0 w <> ResolvesFalsy ->
             files (backend w') = files (backend w)).
Proof.
  intros post [b fs n con tr ca inv] Hfile.
  unfold updatePost, replace_image, nth_fault. rewrite Hfile.
  autounfold with api. js. cbn. settle.
  all: cbn; split; [intros updated; try discriminate |].
  all: try (intros [= <-]; cbn; repeat split; eexists; repeat split;
            eassumption).
  all: eexists; (split; [rewrite <- ?app_assoc; reflexivity |]);
       cbn; split; [reflexivity |]; try reflexivity; try congruence.
Qed.

Lemma updatePost_without_a_new_file_witness :
  map call
    (trace (snd (updatePost
                   {| up_postId := "p1"; up_caption := "new caption";
                      up_imageId := "img-p1";
                      up_imageUrl := preview_url "img-p1"; up_file := [];
                      up_location := ""; up_tags := None |}
                   (sample_world []))))
  = [UpdateDocument postsC "p1"].
Proof.
  destruct (updatePost_without_a_new_file
              {| up_postId := "p1"; up_caption := "new caption";
                 up_imageId := "img-p1";
                 up_imageUrl := preview_url "img-p1"; up_file := [];
                 up_location := ""; up_tags := None |}
              (sample_world []) eq_refl) as (_ & evs & Ht & Hc & _).
  rewrite Ht. exact Hc.
Defined.

(** X9.  [updateUser] without a new file never calls the storage service,
    however its calls settle: the files (and the posts) are as they
    were. *)
Theorem updateUser_without_a_new_file_leaves_storage :
  forall (user : IUpdateUser) (w : World),
    uu_file user = [] ->
    let w' := snd (updateUser user w) in
    files (backend w') = files (backend w)
    /\ posts (backend w') = posts (backend w)
    /\ exists evs,
         trace w' = (trace w ++ evs)%list
         /\ forallb (fun ev => negb (is_storage_call (call ev))) evs = true.
Proof.
  intros user [b fs n con tr ca inv] Hfile.
  unfold updateUser, replace_image. rewrite Hfile.
  autounfold with api. js. cbn. settle.
  all: try match goal with
           | H : _ && false = true |- _ => now rewrite andb_false_r in H
           end.
  all: split; [reflexivity |]; split; [reflexivity |].
  all: eexists; (split; [rewrite <- ?app_assoc; reflexivity |]); reflexivity.
Qed.

Lemma updateUser_without_a_new_file_leaves_storage_witness :
  files (backend (snd (updateUser
                         {| uu_userId := "u1"; uu_name := "u1";
                            uu_username := "u1"; uu_email := "u1@example.org";
                            uu_bio := "hello"; uu_imageId := "avatar-u1";
                            uu_imageUrl := preview_url "avatar-u1";
                            uu_file := [] |}
                         (sample_world []))))
  = files sample_backend.
Proof.
  exact (proj1 (updateUser_without_a_new_file_leaves_storage
                  {| uu_userId := "u1"; uu_name := "u1";
                     uu_username := "u1"; uu_email := "u1@example.org";
                     uu_bio := "hello"; uu_imageId := "avatar-u1";
                     uu_imageUrl := preview_url "avatar-u1";
                     uu_file := [] |}
                  (sample_world []) eq_refl)).
Defined.

Lemma find_map_replace {A} (f : A -> bool) (y : A) (l : list A) (x : A) :
  f y = true ->
  find f l = Some x ->
  find f (map (fun z => if f z then y else z) l) = Some y.
Proof.
  intros Hy. induction l as [| z r IH]; [discriminate |]. cbn.
  destruct (f z) eqn:E; cbn.
  - intros _. now rewrite Hy.
  - intros H. rewrite E. now apply IH.
Qed.

Lemma filter_negb_absent {A} (f : A -> bool) (l : list A) :
  existsb f l = false -> filter (fun x => negb (f x)) l = l.
Proof.
  induction l as [| x r IH]; [reflexivity |]. cbn.
  intros H. apply orb_false_iff in H as [Hx Hr].
  rewrite Hx. cbn. now rewrite IH.
Qed.

(** X10.  [updateUser] is not atomic: when the document update succeeds
    and [account.updateName] is rejected, the user document already holds
    the new values and points at the new file, the account is unchanged,
    no file was deleted, the rejection is logged and [undefined] is
    returned. *)
Theorem updateUser_is_not_atomic :
  forall (user : IUpdateUser) (w : World) (file : File) (u0 : UserRow)
         (code : nat) (rest : list Fault),
    hd_error (uu_file user) = Some file ->
    find_user (backend w) (uu_userId user) = Some u0 ->
    faults w = Resolves :: Resolves :: Resolves :: Rejects code :: rest ->
    let newId := unique_id (ids w) in
    let b := backend w in
    let w' := snd (updateUser user w) in
    fst (updateUser user w) = Returned None
    /\ find_user (backend w') (uu_userId user)
       = Some (set_user_fields (uu_name user) (uu_username user)
                 (uu_email user) (uu_bio user) (preview_url newId) newId u0)
    /\ accounts (backend w') = accounts b
    /\ files (backend w') = (files b ++ [(newId, file)])%list
    /\ console w' = (console w ++ [AppwriteException code])%list.
Proof.
  intros user [b fs n con tr ca inv] file u0 code rest Hfile Hu Hf.
  cbn in Hf, Hu. subst fs.
  unfold updateUser, replace_image.
  destruct (uu_file user) as [| f0 fl]; [discriminate |].
  cbn in Hfile. injection Hfile as ->.
  autounfold with api. js. unfold find_user in *. cbn. rewrite Hu. cbn.
  repeat split.
  apply (find_map_replace (fun u => (row_id u =? uu_userId user)%string)
           _ _ u0); [| assumption].
  cbn. apply find_some in Hu as [_ Hu]. exact Hu.
Qed.

Lemma updateUser_is_not_atomic_witness :
  option_map row_imageId
    (find_user
       (backend (snd (updateUser sample_update_user
                        (sample_world [Resolves; Resolves; Resolves;
                                       Rejects 401]))))
       "u1")
  = Some "id0"
  /\ accounts
       (backend (snd (updateUser sample_update_user
                        (sample_world [Resolves; Resolves; Resolves;
                                       Rejects 401]))))
     = accounts sample_backend.
Proof.
  destruct (updateUser_is_not_atomic sample_update_user
              (sample_world [Resolves; Resolves; Resolves; Rejects 401])
              sample_file (sample_user "u1" "a1") 401%nat []
              eq_refl eq_refl eq_refl) as (_ & H1 & H2 & _).
  split; [exact (f_equal (option_map row_imageId) H1) | exact H2].
Defined.

(** X11.  When every call is fulfilled, [createUserAccount] creates the
    account, asks for the avatar and saves a user document that carries
    the new account's id, name and email and the given username; it
    resolves to that document.  No session call is issued. *)
Theorem createUserAccount_saves_account_and_user :
  forall (user : INewUser) (w : World),
    faults w = [] ->
    let b := backend w in
    let b' := backend (snd (createUserAccount user w)) in
    let newAccount :=
      {| account_id := unique_id (ids w); account_email := nu_email user;
         account_password := nu_password user;
         account_name := nu_name user |} in
    exists doc,
      fst (createUserAccount user w) = Returned (SavedUser (Some doc))
      /\ row_id (user_row doc) = unique_id (S (ids w))
      /\ row_accountId (user_row doc) = account_id newAccount
      /\ row_name (user_row doc) = nu_name user
      /\ row_email (user_row doc) = nu_email user
      /\ row_username (user_row doc) = nu_username user
      /\ users b' = (users b ++ [user_row doc])%list
      /\ accounts b' = (accounts b ++ [newAccount])%list
      /\ map call (trace (snd (createUserAccount user w)))
         = (map call (trace w)
            ++ [AccountCreate (unique_id (ids w)) (nu_email user);
                AvatarsGetInitials (nu_name user);
                CreateDocument usersC (unique_id (S (ids w)))])%list.
Proof.
  intros user [b fs n con tr ca inv] Hf. cbn in Hf. subst fs.
  unfold createUserAccount. autounfold with api. js. cbn.
  eexists. repeat split. rewrite !map_app. cbn.
  now rewrite <- !app_assoc.
Qed.

Lemma createUserAccount_saves_account_and_user_witness :
  map account_id
    (accounts (backend (snd (createUserAccount sample_new_user
                               (sample_world [])))))
  = ["a1"; "id0"]
  /\ map row_accountId
       (users (backend (snd (createUserAccount sample_new_user
                               (sample_world [])))))
     = ["a1"; "a2"; "a3"; "id0"].
Proof.
  destruct (createUserAccount_saves_account_and_user sample_new_user
              (sample_world []) eq_refl)
    as (doc & _ & _ & Hacc & _ & _ & _ & Hu & Ha & _).
  rewrite Ha, Hu, !map_app. cbn [map]. rewrite Hacc. split; reflexivity.
Defined.

(** X12.  When the account was created and saving the user document
    fails, [createUserAccount] resolves to [undefined] and the account
    stays, without a user document. *)
Theorem createUserAccount_may_leave_an_account_without_user :
  forall (user : INewUser) (w : World) (f : Fault) (rest : list Fault),
    faults w = Resolves :: Resolves :: f :: rest ->
    f <> Resolves ->
    let b := backend w in
    let b' := backend (snd (createUserAccount user w)) in
    fst (createUserAccount user w) = Returned (SavedUser None)
    /\ accounts b'
       = (accounts b
          ++ [{| account_id := unique_id (ids w);
                 account_email := nu_email user;
                 account_password := nu_password user;
                 account_name := nu_name user |}])%list
    /\ users b' = users b.
Proof.
  intros user [b fs n con tr ca inv] f rest Hf Hne. cbn in Hf. subst fs.
  unfold createUserAccount. autounfold with api. js. cbn.
  destruct f; [contradiction | |]; cbn; repeat split.
Qed.

Lemma createUserAccount_may_leave_an_account_without_user_witness :
  fst (createUserAccount sample_new_user
         (sample_world [Resolves; Resolves; Rejects 500]))
  = Returned (SavedUser None)
  /\ length (accounts (backend (snd (createUserAccount sample_new_user
                                       (sample_world [Resolves; Resolves;
                                                      Rejects 500])))))
     = 2%nat.
Proof.
  destruct (createUserAccount_may_leave_an_account_without_user
              sample_new_user (sample_world [Resolves; Resolves; Rejects 500])
              (Rejects 500) [] eq_refl ltac:(discriminate))
    as (H1 & H2 & _).
  split; [exact H1 | rewrite H2; reflexivity].
Defined.

(* ================================================================= *)
(** ** Likes and saves *)

Lemma Forall2_same {A} (R : A -> A -> Prop) (l : list A) :
  (forall x, R x x) -> Forall2 R l l.
Proof. intros H. induction l; constructor; auto. Qed.

Lemma Forall2_replace_post (postId : string) (p' : PostDoc)
    (l : list PostDoc) :
  post_id p' = postId ->
  Forall2 (fun old new =>
             post_id new = post_id old
             /\ (post_id old <> postId -> new = old))
    l (map (fun x => if (post_id x =? postId)%string then p' else x) l).
Proof.
  intros Hid. induction l as [| x r IH]; [constructor |].
  cbn. constructor; [| exact IH].
  destruct (String.eqb_spec (post_id x) postId); split; congruence.
Qed.

(** X16.  [likePost] writes nothing but the target post: storage and the
    other collections are as they were, every post keeps its id, posts of
    another id are unchanged, and the post it resolves to has the caption,
    tags, image, location, creator and creation time of the stored one. *)
Theorem likePost_changes_only_the_likes :
  forall (postId : string) (likesArray : list string) (w : World),
    let b := backend w in
    let b' := backend (snd (likePost postId likesArray w)) in
    files b' = files b /\ users b' = users b /\ saves b' = saves b
    /\ follows b' = follows b /\ accounts b' = accounts b
    /\ session b' = session b
    /\ Forall2 (fun old new =>
                  post_id new = post_id old
                  /\ (post_id old <> postId -> new = old))
         (posts b) (posts b')
    /\ (forall p,
          fst (likePost postId likesArray w) = Returned (Some p) ->
          exists p0,
            find_post b postId = Some p0
            /\ post_caption p = post_caption p0
            /\ post_tags p = post_tags p0
            /\ post_imageId p = post_imageId p0
            /\ post_imageUrl p = post_imageUrl p0
            /\ post_location p = post_location p0
            /\ post_creator p = post_creator p0
            /\ post_createdAt p = post_createdAt p0).
Proof.
  intros postId likesArray [b fs n con tr ca inv].
  unfold likePost. autounfold with api. js. cbn. settle.
  all: cbn; repeat split; try discriminate.
  all: try (apply Forall2_same; now split).
  all: try (intros updated [= <-]; eexists;
            split; [reflexivity | now repeat split]).
  all: apply (Forall2_replace_post postId _ (posts b)); cbn;
       now apply (find_post_id b).
Qed.

Lemma likePost_changes_only_the_likes_witness :
  files (backend (snd (likePost "p1" ["u1"; "u2"] (sample_world []))))
  = files sample_backend
  /\ exists p0,
       find_post sample_backend "p1" = Some p0
       /\ post_caption p0 = "caption".
Proof.
  destruct (likePost_changes_only_the_likes "p1" ["u1"; "u2"]
              (sample_world [])) as (Hfiles & _ & _ & _ & _ & _ & _ & H).
  split; [exact Hfiles |].
  destruct (H (stamp 100 (set_likes ["u1"; "u2"] (sample_post "p1" 10 "u1")))
              eq_refl) as (p0 & Hp0 & Hcap & _).
  exists p0. split; [exact Hp0 |]. rewrite <- Hcap. reflexivity.
Defined.

(** X21.  Saving a post and then deleting the saved record it resolved
    to leaves the saves collection as it was (the record links the given
    user to the given post). *)
Theorem savePost_then_deleteSavedPost :
  forall (postId userId : string) (w : World),
    faults w = [] ->
    existsb (fun s => save_id s =? unique_id (ids w))%string
      (saves (backend w)) = false ->
    exists r w1,
      savePost postId userId w = (Returned (Some r), w1)
      /\ save_user r = userId
      /\ save_post r = postId
      /\ saves (backend w1) = (saves (backend w) ++ [r])%list
      /\ fst (deleteSavedPost (save_id r) w1) = Returned (Some tt)
      /\ saves (backend (snd (deleteSavedPost (save_id r) w1)))
         = saves (backend w).
Proof.
  intros postId userId [b fs n con tr ca inv] Hf Hfresh.
  cbn in Hf, Hfresh. subst fs.
  unfold savePost. autounfold with api. js. cbn.
  do 2 eexists. split; [reflexivity |]. cbn.
  rewrite existsb_app. cbn. rewrite String.eqb_refl, orb_true_r. cbn.
  repeat split.
  rewrite filter_app. cbn. rewrite String.eqb_refl. cbn.
  rewrite app_nil_r.
  apply (filter_negb_absent
           (fun s => (save_id s =? unique_id n)%string)).
  exact Hfresh.
Qed.

Lemma savePost_then_deleteSavedPost_witness :
  exists r w1,
    savePost "p1" "u1" (sample_world []) = (Returned (Some r), w1)
    /\ saves (backend (snd (deleteSavedPost (save_id r) w1))) = [].
Proof.
  destruct (savePost_then_deleteSavedPost "p1" "u1" (sample_world [])
              eq_refl eq_refl) as (r & w1 & H & _ & _ & _ & _ & H').
  exists r, w1. split; [exact H | exact H'].
Defined.

(* ================================================================= *)
(** ** Mutations and the query cache *)

Ltac silent :=
  intros [b fs n con tr ca inv]; autounfold with api; js; cbn; settle;
  split; reflexivity.

Lemma Silent_createUserAccount user : Silent (createUserAccount user).
Proof. silent. Qed.
Lemma Silent_signInAccount e p : Silent (signInAccount e p).
Proof. silent. Qed.
Lemma Silent_signOutAccount : Silent signOutAccount.
Proof. silent. Qed.
Lemma Silent_createPost post : Silent (createPost post).
Proof. silent. Qed.
Lemma Silent_likePost i l : Silent (likePost i l).
Proof. silent. Qed.
Lemma Silent_savePost p u : Silent (savePost p u).
Proof. silent. Qed.
Lemma Silent_deleteSavedPost i : Silent (deleteSavedPost i).
Proof. silent. Qed.
Lemma Silent_updatePost post : Silent (updatePost post).
Proof. silent. Qed.
Lemma Silent_deletePost p i : Silent (deletePost p i).
Proof. silent. Qed.
Lemma Silent_updateUser user : Silent (updateUser user).
Proof. silent. Qed.
Lemma Silent_followUser u f : Silent (followUser u f).
Proof. silent. Qed.
Lemma Silent_unfollowUser r : Silent (unfollowUser r).
Proof. silent. Qed.

Lemma never_throws {A} (body : M A) (g : Err -> A) (w : World) (e : Err) :
  fst (try_catch body (fun error => console_log error ;; ret (g error)) w)
  <> Thrown e.
Proof.
  unfold try_catch. destruct (body w) as [[a | x] w']; discriminate.
Qed.

(** What running a mutation does to the cache: the filters it gives to
    [invalidateQueries] after a [mutationFn] that leaves the cache alone. *)
Ltac mutation_effect lemma :=
  let Hc := fresh "Hc" in
  let Hi := fresh "Hi" in
  match goal with
  | |- context [?f ?w] =>
      lazymatch type of w with
      | World =>
          destruct (lemma w) as [Hc Hi];
          destruct (f w) as [[d | e] w1] eqn:Hrun; cbn in Hc, Hi |- *;
          rewrite ?Hc, ?Hi
      end
  end.

Ltac no_throw f :=
  match goal with
  | H : _ = (Thrown _, _) |- _ =>
      apply (f_equal fst) in H; cbn [fst] in H; unfold f in H;
      now apply never_throws in H
  end.

Ltac invalidated :=
  eexists; split; [rewrite <- ?app_assoc; reflexivity |];
  split; reflexivity.

Lemma mutation_effect_spec (c : MutationCall) (w : World) :
  let w' := snd (run_mutation c w) in
  exists ks,
    invalidations w' = (invalidations w ++ ks)%list
    /\ cache w' = invalidated_by ks (cache w)
    /\ match fst (run_mutation c w) with
       | Returned _ =>
           map key_operation ks = map Some (invalidated_operations c)
       | Thrown _ =>
           ks = []
           /\ exists postId imageId,
                c = mutate_deletePost postId imageId
                /\ truthy postId && truthy imageId = false
       end.
Proof.
  destruct c; cbn [run_mutation]; unfold run, mutate;
    cbn [mutationFn onSuccess useCreateUserAccount useSignInAccount
           useSignOutAccount useCreatePost useLikePost useSavePost
           useDeleteSavedPost useUpdatePost useDeletePost useUpdateUser
           useFollowUser useUnfollowUser fst snd];
    unfold invalidateQueries; js.
  - mutation_effect (Silent_createUserAccount user);
      [exists []; now rewrite app_nil_r | no_throw createUserAccount].
  - mutation_effect (Silent_signInAccount email password);
      [exists []; now rewrite app_nil_r | no_throw signInAccount].
  - mutation_effect Silent_signOutAccount;
      [exists []; now rewrite app_nil_r | no_throw signOutAccount].
  - mutation_effect (Silent_createPost post);
      [invalidated | no_throw createPost].
  - mutation_effect (Silent_likePost postId likesArray);
      [invalidated | no_throw likePost].
  - mutation_effect (Silent_savePost postId userId);
      [invalidated | no_throw savePost].
  - mutation_effect (Silent_deleteSavedPost savedRecordId);
      [invalidated | no_throw deleteSavedPost].
  - mutation_effect (Silent_updatePost post);
      [invalidated | no_throw updatePost].
  - mutation_effect (Silent_deletePost postId imageId); [invalidated |].
    exists []. rewrite app_nil_r. repeat split.
    exists postId, imageId. split; [reflexivity |].
    unfold deletePost in Hrun.
    destruct (truthy postId), (truthy imageId); try reflexivity.
    no_throw deletePost.
  - mutation_effect (Silent_updateUser user);
      [invalidated | no_throw updateUser].
  - mutation_effect (Silent_followUser userId followedUserId);
      [invalidated | no_throw followUser].
  - mutation_effect (Silent_unfollowUser followedUserRecord);
      [invalidated | no_throw unfollowUser].
Qed.

(** X13.  Running a mutation appends to the invalidations the keys of
    its [onSuccess], for the operations of the table, whenever its
    [mutationFn] resolved -- which it does even when the remote call
    failed.  Nothing is invalidated only when [deletePost] threw on an
    empty post id or image id. *)
Theorem mutations_invalidate_whatever_the_outcome :
  forall (c : MutationCall) (w : World),
    let w' := snd (run_mutation c w) in
    exists ks,
      invalidations w' = (invalidations w ++ ks)%list
      /\ cache w' = invalidated_by ks (cache w)
      /\ match fst (run_mutation c w) with
         | Returned _ =>
             map key_operation ks = map Some (invalidated_operations c)
         | Thrown _ =>
             ks = []
             /\ exists postId imageId,
                  c = mutate_deletePost postId imageId
                  /\ truthy postId && truthy imageId = false
         end.
Proof. exact mutation_effect_spec. Qed.

Lemma invalidate_entry_other (k : QueryKey) (e : CacheEntry)
    (o o' : QUERY_KEYS) :
  key_operation (entry_key e) = Some o ->
  key_operation k = Some o' ->
  QUERY_KEYS_eqb o o' = false ->
  invalidate_entry k e = e.
Proof.
  unfold invalidate_entry, key_operation.
  destruct (entry_key e) as [| [x | |] r]; try discriminate.
  destruct k as [| [y | |] k']; try discriminate.
  intros [= ->] [= ->] H. cbn. now rewrite H.
Qed.

Lemma invalidated_by_keeps (ks : list QueryKey) :
  forall (c : list CacheEntry) (e : CacheEntry),
    (forall k, In k ks -> invalidate_entry k e = e) ->
    In e c -> In e (invalidated_by ks c).
Proof.
  unfold invalidated_by.
  induction ks as [| k r IH]; intros c e Hk He; [exact He |].
  cbn. apply IH; [intros k' Hk'; apply Hk; now right |].
  apply in_map_iff. exists e. split; [apply Hk; now left | exact He].
Qed.

Lemma invalidated_operations_named (c : MutationCall) (o : QUERY_KEYS) :
  In o (invalidated_operations c) -> never_invalidated o = false.
Proof.
  destruct c; cbn; intuition (subst; reflexivity).
Qed.

(** X15.  No mutation touches a cached explore feed, search, user-posts,
    profile-feed or user-list query: such an entry is in the cache after
    the mutation as it was before. *)
Theorem mutations_leave_other_queries_fresh :
  forall (c : MutationCall) (w : World) (e : CacheEntry) (o : QUERY_KEYS),
    In e (cache w) ->
    key_operation (entry_key e) = Some o ->
    never_invalidated o = true ->
    In e (cache (snd (run_mutation c w))).
Proof.
  intros c w e o He Ho Hn.
  destruct (mutation_effect_spec c w) as (ks & _ & Hc & Hks).
  cbv zeta in Hc. rewrite Hc.
  apply invalidated_by_keeps; [| exact He].
  intros k Hk.
  destruct (fst (run_mutation c w)) as [[] | x].
  - assert (Hin : In (key_operation k) (map key_operation ks))
      by now apply in_map.
    rewrite Hks in Hin. apply in_map_iff in Hin as (o' & Ho' & Hin).
    apply invalidated_operations_named in Hin.
    apply (invalidate_entry_other k e o o'); auto.
    destruct o, o'; try reflexivity; discriminate.
  - destruct Hks as [-> _]. contradiction.
Qed.

Lemma mutations_leave_other_queries_fresh_witness :
  In {| entry_key := [KOp GET_EXPLORE_POSTS]; entry_invalidated := false |}
    (cache (snd (run_mutation (mutate_createPost sample_new_post)
                   (sample_world [])))).
Proof.
  apply (mutations_leave_other_queries_fresh
           (mutate_createPost sample_new_post) (sample_world []) _
           GET_EXPLORE_POSTS); [cbn; tauto | reflexivity | reflexivity].
Defined.

(** X22.  Following or unfollowing invalidates the user-following key
    only, under which none of the queries of the layer is cached: every
    cached query of the layer is left as it was. *)
Theorem follow_refreshes_no_query_of_the_layer :
  forall (c : MutationCall) (w : World) (e : CacheEntry)
         (id : option string) (userId term : string) (limit : option Z),
    (exists u f, c = mutate_followUser u f)
    \/ (exists r, c = mutate_unfollowUser r) ->
    In e (cache w) ->
    In (entry_key e)
      [infiniteKey useGetHomeFeedPosts; infiniteKey useGetExplorePosts;
       queryKey (useSearchPosts term); queryKey (useGetPostById id);
       queryKey (useGetUserPosts id);
       infiniteKey (useGetUserProfilePosts userId);
       queryKey useGetCurrentUser; queryKey (useGetUserById userId);
       queryKey (useGetUsers limit); infiniteKey useGetAllUsers] ->
    In e (cache (snd (run_mutation c w))).
Proof.
  intros c w e id userId term limit Hc He Hk.
  destruct (mutation_effect_spec c w) as (ks & _ & Hcache & Hks).
  cbv zeta in Hcache. rewrite Hcache.
  apply invalidated_by_keeps; [| exact He].
  intros k Hin.
  assert (Hop : key_operation k = Some GET_USER_FOLLOWING).
  { destruct (fst (run_mutation c w)) as [[] | x].
    - assert (H : In (key_operation k) (map key_operation ks))
        by now apply in_map.
      rewrite Hks in H.
      destruct Hc as [(u & f & ->) | (r & ->)]; cbn in H;
        destruct H as [H | []]; now symmetry.
    - destruct Hks as [-> _]. contradiction. }
  cbn in Hk.
  assert (Ho : exists o, key_operation (entry_key e) = Some o
                         /\ QUERY_KEYS_eqb o GET_USER_FOLLOWING = false).
  { repeat (destruct Hk as [<- | Hk]; [eexists; split; reflexivity |]).
    contradiction. }
  destruct Ho as (o & Ho & Hne).
  now apply (invalidate_entry_other k e o GET_USER_FOLLOWING).
Qed.

Lemma follow_refreshes_no_query_of_the_layer_witness :
  In {| entry_key := [KOp GET_USER_BY_ID; KString "u1"];
        entry_invalidated := false |}
    (cache (snd (run_mutation (mutate_followUser "u3" "u1")
                   (sample_world [])))).
Proof.
  apply (follow_refreshes_no_query_of_the_layer
           (mutate_followUser "u3" "u1") (sample_world []) _
           None "u1" "" None).
  - left. now exists "u3", "u1".
  - cbn. tauto.
  - cbn. tauto.
Defined.

(** X14.  When the like fails, [onSuccess] still runs: the posts are as
    they were, the post-by-id key invalidated is the one built from
    [undefined], and the cached query of the liked post is left as it
    was. *)
Theorem failed_like_invalidates_the_undefined_key :
  forall (postId : string) (likesArray : list string) (w : World),
    fst (mutate useLikePost (postId, likesArray) w) = Returned None ->
    let w' := snd (mutate useLikePost (postId, likesArray) w) in
    posts (backend w') = posts (backend w)
    /\ invalidations w'
       = (invalidations w
          ++ [[KOp GET_POST_BY_ID; KUndefined];
              [KOp GET_HOME_FEED_POSTS];
              [KOp GET_CURRENT_USER]])%list
    /\ (forall e, In e (cache w) ->
                  entry_key e = [KOp GET_POST_BY_ID; KString postId] ->
                  In e (cache w')).
Proof.
  intros postId likesArray [b fs n con tr ca inv].
  unfold mutate, useLikePost, likePost, databases_updateDocument_posts, sdk,
    invalidateQueries.
  cbn [mutationFn onSuccess fst snd]. js. cbn.
  destruct fs as [| [| | code] fs]; cbn;
    destruct (find_post b postId) as [p0 |] eqn:Hp0; cbn;
    try discriminate; intros _.
  all: (split; [reflexivity |]);
       (split; [rewrite <- !app_assoc; reflexivity |]).
  all: intros e He Hk; rewrite !map_map; apply in_map_iff; exists e;
       (split; [| exact He]);
       unfold invalidate_entry; rewrite Hk; cbn; rewrite Hk; cbn;
       now rewrite Hk.
Qed.

Lemma failed_like_invalidates_the_undefined_key_witness :
  invalidations (snd (mutate useLikePost ("p1", ["u1"; "u2"])
                        (sample_world [Rejects 500])))
  = [[KOp GET_POST_BY_ID; KUndefined]; [KOp GET_HOME_FEED_POSTS];
     [KOp GET_CURRENT_USER]]
  /\ option_map post_likes
       (find_post
          (backend (snd (mutate useLikePost ("p1", ["u1"; "u2"])
                           (sample_world [Rejects 500]))))
          "p1")
     = Some ["u1"].
Proof.
  destruct (failed_like_invalidates_the_undefined_key "p1" ["u1"; "u2"]
              (sample_world [Rejects 500]) eq_refl) as (H1 & H2 & _).
  split; [exact H2 |]. unfold find_post. rewrite H1. reflexivity.
Defined.

(* ================================================================= *)
(** ** The fan-out of the home feed *)

Lemma Promise_all_calls (userIds : list string) : forall w,
  let fan_out :=
    Promise_all
      (map (fun userId =>
              databases_listDocuments_posts [Query_equal "creator" userId])
         userIds) in
  exists evs,
    trace (snd (fan_out w)) = (trace w ++ evs)%list
    /\ map call evs
       = map (fun userId => ListDocuments postsC [Query_equal "creator" userId])
           userIds.
Proof.
  induction userIds as [| u r IH]; intros w; cbv zeta in *.
  - exists []. cbn. now rewrite app_nil_r.
  - cbn [map]. unfold Promise_all; fold (@Promise_all (option (list PostDoc))).
    destruct (databases_listDocuments_posts [Query_equal "creator" u] w)
      as [o w1] eqn:E.
    assert (H1 : exists ev,
               trace w1 = (trace w ++ [ev])%list
               /\ call ev = ListDocuments postsC [Query_equal "creator" u]).
    { revert E. destruct w as [b fs n con tr ca inv].
      unfold databases_listDocuments_posts, sdk. cbn.
      destruct fs as [| [| | code] fs]; cbn; intros [= <- <-];
        eexists; cbn; auto. }
    destruct H1 as (ev & Ht & Hc).
    destruct (IH w1) as (evs & It & Ic).
    exists (ev :: evs). cbn [map]. rewrite Hc, Ic.
    split; [| reflexivity].
    destruct o as [a | e].
    + destruct (Promise_all _ w1) as [[l | e] w2]; cbn in *;
        now rewrite It, Ht, <- app_assoc.
    + cbn. now rewrite It, Ht, <- app_assoc.
Qed.

(** X17.  Once the current user is fetched, [getFollowingPosts] issues
    one list query per followed user and one for the user, whatever
    happens to each of them: a rejected query does not stop the others. *)
Theorem home_feed_issues_every_list_query :
  forall (w : World) (a : Account) (u : UserRow),
    nth_fault 0 w = Resolves ->
    nth_fault 1 w = Resolves ->
    current_account (backend w) = Some a ->
    hd_error (filter (fun r => row_accountId r =? account_id a)%string
                (users (backend w))) = Some u ->
    let userIds := userIds_of (expand_user (backend w) u) in
    exists evs,
      trace (snd (getFollowingPosts w)) = (trace w ++ evs)%list
      /\ map call evs
         = ([AccountGet;
             ListDocuments usersC [Query_equal "accountId" (account_id a)]]
            ++ map (fun userId =>
                      ListDocuments postsC [Query_equal "creator" userId])
                 userIds)%list
      /\ length evs = (3 + length (following (expand_user (backend w) u)))%nat.
Proof.
  intros [b fs n con tr ca inv] a u H0 H1 Ha Hu userIds.
  assert (Hlen : forall evs : list Event,
             map call evs
             = ([AccountGet;
                 ListDocuments usersC
                   [Query_equal "accountId" (account_id a)]]
                ++ map (fun userId =>
                          ListDocuments postsC [Query_equal "creator" userId])
                     userIds)%list ->
             length evs = (3 + length (following (expand_user b u)))%nat).
  { intros evs H. apply (f_equal (@length Call)) in H.
    rewrite length_map, length_app, length_map in H. rewrite H.
    subst userIds. unfold userIds_of. rewrite length_app, length_map.
    cbn. lia. }
  cbn [backend] in *.
  assert (Hscript : hd Resolves fs = Resolves
                    /\ hd Resolves (tl fs) = Resolves).
  { unfold nth_fault in *. cbn in H0, H1.
    destruct fs as [| f1 [| f2 rest]]; cbn in *; auto. }
  destruct Hscript as [Hs0 Hs1].
  unfold getFollowingPosts, getCurrentUser, account_get,
    databases_listDocuments_users, sdk. js. cbn.
  rewrite Hs0, Ha. cbn. rewrite Hs1. cbn.
  destruct (filter _ (users b)) as [| u' rows]; [discriminate |].
  cbn in Hu. injection Hu as ->. cbn.
  match goal with
  | |- context [Promise_all (map _ ?ids) ?w0] =>
      destruct (Promise_all_calls ids w0) as (evs & Ht & Hc);
      cbv zeta in Ht;
      destruct (Promise_all _ w0) as [[l | e] w2]; cbn in Ht |- *
  end.
  - destruct (flatMap_documents_pure l w2) as [Hs _].
    destruct (flatMap_documents l w2) as [[x | e] w3]; cbn in *; subst w3;
      rewrite Ht; eexists;
      (split; [rewrite <- !app_assoc; reflexivity |]);
      (split; [| apply Hlen]); cbn; now rewrite Hc.
  - rewrite Ht. eexists.
    (split; [rewrite <- !app_assoc; reflexivity |]).
    (split; [| apply Hlen]); cbn; now rewrite Hc.
Qed.

Lemma home_feed_issues_every_list_query_witness :
  map call (trace (snd (getFollowingPosts
                          (sample_world [Resolves; Resolves; Rejects 500]))))
  = [AccountGet; ListDocuments usersC [Query_equal "accountId" "a1"];
     ListDocuments postsC [Query_equal "creator" "u2"];
     ListDocuments postsC [Query_equal "creator" "u1"]].
Proof.
  destruct (home_feed_issues_every_list_query
              (sample_world [Resolves; Resolves; Rejects 500])
              {| account_id := "a1"; account_email := "u1@example.org";
                 account_password := "secret"; account_name := "u1" |}
              (sample_user "u1" "a1") eq_refl eq_refl eq_refl eq_refl)
    as (evs & Ht & Hc & _).
  rewrite Ht. exact Hc.
Defined.

(** X18.  For a signed-in account that has no user document,
    [getCurrentUser] resolves to [undefined] without logging, and the home
    feed is [undefined]: [Error] is logged once and no post query is
    issued. *)
Theorem home_feed_without_a_user_document :
  forall (w : World) (a : Account) (page pageSize : Z),
    faults w = [] ->
    current_account (backend w) = Some a ->
    filter (fun r => row_accountId r =? account_id a)%string
      (users (backend w)) = [] ->
    let w' := snd (getHomeFeedPosts page pageSize w) in
    fst (getHomeFeedPosts page pageSize w) = Returned None
    /\ fst (getCurrentUser w) = Returned None
    /\ console (snd (getCurrentUser w)) = console w
    /\ console w' = (console w ++ [ErrorCtor])%list
    /\ map call (trace w')
       = (map call (trace w)
          ++ [AccountGet;
              ListDocuments usersC
                [Query_equal "accountId" (account_id a)]])%list.
Proof.
  intros w a page pageSize Hf Ha Hrows w'. subst w'.
  pose proof (getCurrentUser_fulfilled w a Hf Ha) as Hcu.
  rewrite Hrows in Hcu. cbn [map hd_error] in Hcu.
  unfold getHomeFeedPosts, getFollowingPosts. js. rewrite Hcu.
  cbn [fst snd]. unfold console_log. cbn [fst snd console trace].
  refine (conj eq_refl (conj eq_refl (conj _ (conj _ _)))).
  - reflexivity.
  - reflexivity.
  - apply read_calls_trace.
Qed.

Lemma home_feed_without_a_user_document_witness :
  fst (getHomeFeedPosts 1 3
         {| backend := with_users [] sample_backend; faults := []; ids := 0;
            console := []; trace := []; cache := []; invalidations := [] |})
  = Returned None.
Proof.
  exact (proj1 (home_feed_without_a_user_document
                  {| backend := with_users [] sample_backend; faults := [];
                     ids := 0; console := []; trace := []; cache := [];
                     invalidations := [] |}
                  {| account_id := "a1"; account_email := "u1@example.org";
                     account_password := "secret"; account_name := "u1" |}
                  1 3 eq_refl eq_refl eq_refl)).
Defined.

Lemma Permutation_filter_length {A} (f : A -> bool) (l l' : list A) :
  Permutation l l' -> length (filter f l) = length (filter f l').
Proof.
  induction 1 as [| x l l' _ IH | x y l | l l' l'' _ IH1 _ IH2]; cbn.
  - reflexivity.
  - destruct (f x); cbn; now rewrite IH.
  - destruct (f x), (f y); reflexivity.
  - now rewrite IH1.
Qed.

Lemma filter_length_member {A} (f : A -> bool) (x : A) (l : list A) :
  In x l -> f x = true -> (1 <= length (filter f l))%nat.
Proof.
  intros Hin Hf.
  assert (H : In x (filter f l)) by (apply filter_In; now split).
  destruct (filter f l); [contradiction | cbn; lia].
Qed.

(** X19.  The user ids of the home feed are not deduplicated: when the
    user's own id is among the followed ids, each of the user's posts is in
    the merged feed at least twice. *)
Theorem following_oneself_doubles_own_posts :
  forall (w : World) (a : Account) (u : UserRow) (p : PostDoc),
    faults w = [] ->
    current_account (backend w) = Some a ->
    hd_error (filter (fun r => row_accountId r =? account_id a)%string
                (users (backend w))) = Some u ->
    In (row_id u) (map followedUser (following (expand_user (backend w) u))) ->
    In p (posts (backend w)) ->
    post_creator p = row_id u ->
    exists all,
      fst (getFollowingPosts w) = Returned (Some all)
      /\ (2 <= length (filter (fun q => post_id q =? post_id p)%string
                          all))%nat.
Proof.
  intros w a u p Hf Ha Hu Hself Hp Hc.
  pose proof (getFollowingPosts_fulfilled w a u Hf Ha Hu) as Hrun.
  cbv zeta in Hrun. rewrite Hrun. eexists. split; [reflexivity |].
  rewrite (Permutation_filter_length _ _ _ (sort_perm post_createdAt _)).
  unfold userIds_of, user_id. cbn [user_row expand_user].
  rewrite flat_map_app, filter_app, length_app.
  assert (Hown : In p (posts_of (backend w) (row_id u))).
  { unfold posts_of. apply filter_In. split; [exact Hp |].
    rewrite Hc. apply String.eqb_refl. }
  set (followed := map followedUser (following (expand_user (backend w) u))).
  assert (H1 : (1 <= length (filter (fun q => post_id q =? post_id p)%string
                               (flat_map (posts_of (backend w))
                                  followed)))%nat).
  { apply (filter_length_member _ p); [| apply String.eqb_refl].
    apply in_flat_map. exists (row_id u). now split. }
  assert (H2 : (1 <= length (filter (fun q => post_id q =? post_id p)%string
                               (flat_map (posts_of (backend w))
                                  [row_id u])))%nat).
  { apply (filter_length_member _ p); [| apply String.eqb_refl].
    cbn. now rewrite app_nil_r. }
  subst followed. cbn [expand_user following] in H1 |- *. lia.
Qed.

Lemma following_oneself_doubles_own_posts_witness :
  exists all,
    fst (getFollowingPosts
           {| backend :=
                with_follows [{| follow_id := "f0"; follower := "u1";
                                 followedUser := "u1" |}] sample_backend;
              faults := []; ids := 0; console := []; trace := [];
              cache := []; invalidations := [] |})
    = Returned (Some all)
    /\ (2 <= length (filter (fun q => post_id q =? "p1")%string all))%nat.
Proof.
  exact (following_oneself_doubles_own_posts
           {| backend :=
                with_follows [{| follow_id := "f0"; follower := "u1";
                                 followedUser := "u1" |}] sample_backend;
              faults := []; ids := 0; console := []; trace := [];
              cache := []; invalidations := [] |}
           {| account_id := "a1"; account_email := "u1@example.org";
              account_password := "secret"; account_name := "u1" |}
           (sample_user "u1" "a1") (sample_post "p1" 10 "u1")
           eq_refl eq_refl eq_refl (or_introl eq_refl) (or_introl eq_refl)
           eq_refl).
Defined.
